(** * Retry and back-off logic of the AI Game Builder

    A shallow embedding of the rate-limit handling of the repository:

    - [config.py]: [GeminiConfig.is_quota_error], [get_adaptive_delay],
      [handle_quota_exceeded];
    - [agents.py]: [ResilientChatGoogleGenerativeAI._generate];
    - [crew.py]: [GameBuilderCrew.run], [_rate_limit_callback],
      [_create_error_response];
    - [agents.py]: [GameBuilderAgents.get_agent_with_fallback];
    - [tools.py]: [GameBuilderTools.scan_security_issues];
    - [main.py]: the command line, [train] up to its confirmation prompt,
      [get_custom_game_prompt];
    - [pacman.py]: the game between the code fences of the file.

    Conventions of the embedding.

    - An exception raised by the wrapped call is represented by its text
      [str(e)], a [string] of 8-bit characters; [str.lower] is modelled on
      the ASCII letters.
    - Durations handed to [time.sleep] are rationals.  The integer
      expressions of the source ([60 + attempt * 30], [10 * 2 ** n]) are
      computed in [Z] and injected; the float ones ([REQUEST_DELAY] times a
      power of the back-off base) are computed in [Q].
    - The wrapped call is a function from the number of earlier invocations
      to what the invocation does.  For [_generate] it is
      [super()._generate(...)]; for [run] it is the part of the [try] block
      that follows the delay (building the agents, the tasks and the crew,
      then [crew.kickoff()]), any exception of which reaches the same
      [except] clause.
    - Every controller returns, next to its outcome, the list of the
      observable events it performed, in order. *)

From Stdlib Require Import String Ascii List Arith ZArith QArith Qround Lia Lqa Bool.
From Stdlib Require Import DecimalString DecimalNat.
From Equations Require Import Equations.
Import ListNotations.

Open Scope string_scope.
Open Scope list_scope.
Open Scope nat_scope.

(** ** Python strings *)

Module PyStr.

(** [c.lower()] on one ASCII character. *)
Definition lower_ascii (c : ascii) : ascii :=
  let n := nat_of_ascii c in
  if (65 <=? n) && (n <=? 90) then ascii_of_nat (n + 32) else c.

(** [s.lower()] *)
Fixpoint lower (s : string) : string :=
  match s with
  | EmptyString => EmptyString
  | String c rest => String (lower_ascii c) (lower rest)
  end.

(** [hay.startswith(needle)] *)
Fixpoint startswith (needle hay : string) : bool :=
  match needle, hay with
  | EmptyString, _ => true
  | String _ _, EmptyString => false
  | String a n', String b h' => Ascii.eqb a b && startswith n' h'
  end.

(** [needle in hay] *)
Fixpoint contains (needle hay : string) : bool :=
  startswith needle hay ||
  match hay with
  | EmptyString => false
  | String _ h' => contains needle h'
  end.

(** The mathematical meaning of [needle in hay]. *)
Definition substring_of (needle hay : string) : Prop :=
  exists pre post, hay = (pre ++ needle ++ post)%string.

End PyStr.

Notation "needle 'in_' hay" := (PyStr.contains needle hay)
  (at level 70, no associativity).

(** ** Python numbers *)

(** [min(a, b)]: the first argument unless the second is strictly smaller. *)
Definition py_min (a b : Q) : Q :=
  match (b ?= a)%Q with
  | Lt => b
  | _ => a
  end.

(** [base ** n] for a non-negative integer exponent. *)
Fixpoint py_pow (base : Q) (n : nat) : Q :=
  match n with
  | O => 1%Q
  | S k => (base * py_pow base k)%Q
  end.

(** [a > b] *)
Definition py_gt (a b : Q) : bool :=
  match (a ?= b)%Q with
  | Gt => true
  | _ => false
  end.

(** ** config.py *)

(** The class attributes of [GeminiConfig] that the rate-limit logic reads. *)
Record GeminiConfig : Type := {
  REQUEST_DELAY : Q;
  MAX_QUOTA_RETRIES : nat;
  QUOTA_WAIT_TIME : Q;
  EXPONENTIAL_BACKOFF_BASE : Q;
  MAX_BACKOFF_TIME : Q
}.

(** The values of the source, with no environment override. *)
Definition default_config : GeminiConfig := {|
  REQUEST_DELAY := 3;
  MAX_QUOTA_RETRIES := 10;
  QUOTA_WAIT_TIME := 65;
  EXPONENTIAL_BACKOFF_BASE := 2;
  MAX_BACKOFF_TIME := 300
|}.

Definition quota_indicators : list string :=
  [ "429";
    "rate limit";
    "quota exceeded";
    "resource_exhausted";
    "resourceexhausted";
    "too many requests";
    "rate_limit_exceeded";
    "quota_exceeded" ].

(** [GeminiConfig.is_quota_error(error)] *)
Definition is_quota_error (error : string) : bool :=
  let error_str := PyStr.lower error in
  existsb (fun indicator => indicator in_ error_str) quota_indicators.

(** [GeminiConfig.get_adaptive_delay(error_count)] *)
Definition get_adaptive_delay (cls : GeminiConfig) (error_count : nat) : Q :=
  if error_count =? 0 then REQUEST_DELAY cls
  else
    let adaptive_delay :=
      (REQUEST_DELAY cls *
       py_pow (EXPONENTIAL_BACKOFF_BASE cls) (Nat.min error_count 5))%Q in
    py_min adaptive_delay (MAX_BACKOFF_TIME cls).

(** The wait computed by [GeminiConfig.handle_quota_exceeded], lines 82-84. *)
Definition quota_wait_time (cls : GeminiConfig) (retry_count : nat) : Q :=
  let base_wait := QUOTA_WAIT_TIME cls in
  let exponential_factor :=
    py_min (py_pow (EXPONENTIAL_BACKOFF_BASE cls) retry_count)
           (MAX_BACKOFF_TIME cls / base_wait)%Q in
  py_min (base_wait * exponential_factor)%Q (MAX_BACKOFF_TIME cls).

(** [GeminiConfig._show_wait_progress(wait_time)]: one [time.sleep(1)] per
    iteration of [range(int(wait_time), 0, -1)]. *)
Definition _show_wait_progress (wait_time : Q) : list Q :=
  repeat 1%Q (Z.to_nat (Qfloor wait_time)).

(** [GeminiConfig.handle_quota_exceeded(retry_count)]: the returned flag and
    the sleeps performed (none once [retry_count] has reached
    [MAX_QUOTA_RETRIES]). *)
Definition handle_quota_exceeded (cls : GeminiConfig) (retry_count : nat)
  : bool * list Q :=
  if MAX_QUOTA_RETRIES cls <=? retry_count then (false, [])
  else (true, _show_wait_progress (quota_wait_time cls retry_count)).

(** ** Observable behaviour of a controller *)

(** The call sites of [time.sleep] in the two retry loops. *)
Inductive sleep_site : Type :=
| RequestDelay      (* GeminiConfig.add_request_delay() *)
| AdaptiveDelay     (* crew.py: time.sleep(adaptive_delay) *)
| RateLimitWait     (* time.sleep(wait_time) in the rate-limit branch *)
| ErrorBackoff.     (* crew.py: time.sleep(wait_time) in the other branch *)

Inductive event : Type :=
| Sleep (site : sleep_site) (seconds : Q)
| Invoke (index : nat).

Definition trace : Type := list event.

(** What one invocation of the wrapped call does. *)
Inductive attempt (V : Type) : Type :=
| Ok (value : V)
| Fail (message : string).
Arguments Ok {V} value.
Arguments Fail {V} message.

(** The exceptions that leave a controller.  [Original] is the exception of
    the wrapped call, re-raised by [raise e].  [RateLimitExceeded] is
    [Exception(f"Rate limit exceeded after {max_attempts} attempts. ...")];
    it is raised inside the [except] block, so Python records the exception
    being handled as its [__context__].  [AllAttemptsFailed] is the
    exception raised after the [for] loop. *)
Inductive exn : Type :=
| Original (message : string)
| RateLimitExceeded (max_attempts : nat) (context : string)
| AllAttemptsFailed.

Inductive outcome (A : Type) : Type :=
| Returned (a : A)
| Raised (e : exn).
Arguments Returned {A} a.
Arguments Raised {A} e.

(** The durations of all sleeps of a trace, in order. *)
Fixpoint waits (tr : trace) : list Q :=
  match tr with
  | [] => []
  | Sleep _ d :: rest => d :: waits rest
  | Invoke _ :: rest => waits rest
  end.

Definition sleep_site_eqb (a b : sleep_site) : bool :=
  match a, b with
  | RequestDelay, RequestDelay
  | AdaptiveDelay, AdaptiveDelay
  | RateLimitWait, RateLimitWait
  | ErrorBackoff, ErrorBackoff => true
  | _, _ => false
  end.

(** The durations of the sleeps performed at one call site. *)
Fixpoint waits_at (site : sleep_site) (tr : trace) : list Q :=
  match tr with
  | [] => []
  | Sleep s d :: rest =>
      if sleep_site_eqb s site then d :: waits_at site rest
      else waits_at site rest
  | Invoke _ :: rest => waits_at site rest
  end.

(** The invocations of the wrapped call, in order. *)
Fixpoint invocations (tr : trace) : list nat :=
  match tr with
  | [] => []
  | Sleep _ _ :: rest => invocations rest
  | Invoke i :: rest => i :: invocations rest
  end.

(** Prefix a result with the events performed before it. *)
Definition after {R : Type} (evs : trace) (r : R * trace) : R * trace :=
  (fst r, evs ++ snd r).

(** [wait_time = 60 + (attempt * 30)], the wait of the rate-limit branch of
    both retry loops. *)
Definition rate_limit_wait (attempt_ : nat) : Q :=
  inject_Z (60 + Z.of_nat attempt_ * 30).

(** [wait_time = 10 * (2 ** self.consecutive_errors)] of [crew.py]. *)
Definition error_backoff (consecutive_errors : nat) : Q :=
  inject_Z (10 * 2 ^ Z.of_nat consecutive_errors).

(** ** agents.py *)

(** The test of the [except] block of [_generate]. *)
Definition agent_is_rate_limit (e : string) : bool :=
  let error_str := PyStr.lower e in
  is_quota_error e
  || ("rate limit" in_ error_str)
  || ("quota" in_ error_str)
  || ("too many requests" in_ error_str)
  || ("429" in_ error_str)
  || ("resource_exhausted" in_ error_str).

Section Agent.

Context {V : Type}.
Variable cls : GeminiConfig.
Variable super_generate : nat -> attempt V.

(** The body of [for attempt in range(max_attempts)], from iteration
    [attempt_] on, with [remaining] iterations left. *)
Fixpoint generate_loop (remaining attempt_ : nat) : outcome V * trace :=
  let max_attempts := MAX_QUOTA_RETRIES cls in
  match remaining with
  | O => (Raised AllAttemptsFailed, [])
  | S remaining' =>
      let delay :=
        if 0 <? attempt_ then [Sleep RequestDelay (REQUEST_DELAY cls)]
        else [] in
      after (delay ++ [Invoke attempt_])
        match super_generate attempt_ with
        | Ok v => (Returned v, [])
        | Fail e =>
            if agent_is_rate_limit e then
              if attempt_ <? max_attempts - 1 then
                after [Sleep RateLimitWait (rate_limit_wait attempt_)]
                      (generate_loop remaining' (S attempt_))
              else (Raised (RateLimitExceeded max_attempts e), [])
            else (Raised (Original e), [])
        end
  end.

(** [ResilientChatGoogleGenerativeAI._generate] *)
Definition _generate : outcome V * trace :=
  generate_loop (MAX_QUOTA_RETRIES cls) 0.

End Agent.

(** ** crew.py *)

(** [is_rate_limit_error] of the [except] block of [run]. *)
Definition crew_is_rate_limit (e : string) : bool :=
  let error_str := PyStr.lower e in
  is_quota_error e
  || ("rate limit" in_ error_str)
  || ("quota" in_ error_str)
  || ("too many requests" in_ error_str)
  || ("429" in_ error_str)
  || ("resource_exhausted" in_ error_str)
  || ("iteration limit" in_ error_str)
  || ("time limit" in_ error_str).

(** What [run] returns: the result of [crew.kickoff()], or the text built by
    [_create_error_response(error_type)], a fixed text for each of its
    keys, represented by the key. *)
Inductive run_value (V : Type) : Type :=
| CrewOutput (result : V)
| ErrorResponse (error_type : string).
Arguments CrewOutput {V} result.
Arguments ErrorResponse {V} error_type.

Section Crew.

Context {V : Type}.
Variable cls : GeminiConfig.
Variable kickoff : nat -> attempt V.

(** The delay at the head of the [try] block, lines 30-36. *)
Definition pre_attempt_delay (consecutive_errors : nat) : event :=
  let adaptive_delay := get_adaptive_delay cls consecutive_errors in
  if py_gt adaptive_delay (REQUEST_DELAY cls)
  then Sleep AdaptiveDelay adaptive_delay
  else Sleep RequestDelay (REQUEST_DELAY cls).

(** The [while] loop of [run] from a given state: the local
    [quota_retry_count], the field [self.consecutive_errors] and the number
    of calls of [crew.kickoff()] made so far.  The result is the outcome,
    the final [self.consecutive_errors] and the events. *)
Equations? run_loop (quota_retry_count consecutive_errors calls : nat)
  : (outcome (run_value V) * nat) * trace
  by wf ((MAX_QUOTA_RETRIES cls - quota_retry_count)
         + (3 - consecutive_errors)) lt :=
run_loop quota_retry_count consecutive_errors calls
  with lt_dec quota_retry_count (MAX_QUOTA_RETRIES cls) => {
  | right _ :=
      ((Returned (ErrorResponse "max_retries_exceeded"), consecutive_errors),
       []);
  | left _ with kickoff calls => {
    | Ok result :=
        ((Returned (CrewOutput result), 0),
         [pre_attempt_delay consecutive_errors; Invoke calls]);
    | Fail e with crew_is_rate_limit e => {
      | true with lt_dec quota_retry_count (MAX_QUOTA_RETRIES cls - 1) => {
        | left _ :=
            after [pre_attempt_delay consecutive_errors; Invoke calls;
                   Sleep RateLimitWait (rate_limit_wait quota_retry_count)]
                  (run_loop (S quota_retry_count) (S consecutive_errors)
                            (S calls));
        | right _ :=
            ((Returned (ErrorResponse "rate_limit_exceeded"),
              consecutive_errors),
             [pre_attempt_delay consecutive_errors; Invoke calls]) };
      | false with lt_dec consecutive_errors 3 => {
        | left _ :=
            after [pre_attempt_delay consecutive_errors; Invoke calls;
                   Sleep ErrorBackoff (error_backoff (S consecutive_errors))]
                  (run_loop quota_retry_count (S consecutive_errors)
                            (S calls));
        | right _ :=
            ((Raised (Original e), consecutive_errors),
             [pre_attempt_delay consecutive_errors; Invoke calls]) } } } }.
Proof.
  all: destruct consecutive_errors as [|[|[|?]]]; simpl; lia.
Qed.

(** [GameBuilderCrew.run] on an instance whose [consecutive_errors] field
    holds the given value. *)
Definition run (consecutive_errors : nat)
  : (outcome (run_value V) * nat) * trace :=
  run_loop 0 consecutive_errors 0.

End Crew.

(** The indicators accepted by the [except] block of [_generate]: those of
    [is_quota_error] and the five tested in line. *)
Definition agent_indicators : list string :=
  quota_indicators ++
  [ "rate limit"; "quota"; "too many requests"; "429"; "resource_exhausted" ].

(** The indicators accepted by the [except] block of [run]. *)
Definition crew_indicators : list string :=
  agent_indicators ++ [ "iteration limit"; "time limit" ].

(** An invocation that raises an exception accepted by [classify]. *)
Definition fails_with {V : Type} (classify : string -> bool)
  (a : attempt V) : bool :=
  match a with
  | Ok _ => false
  | Fail e => classify e
  end.

(** The two call sites of the delay at the head of the [try] block. *)
Definition is_pre_attempt (site : sleep_site) : bool :=
  match site with
  | RequestDelay | AdaptiveDelay => true
  | RateLimitWait | ErrorBackoff => false
  end.

(** Every invocation of a trace comes directly after a sleep of the head of
    the [try] block; [delayed] tells whether the event before the trace was
    such a sleep. *)
Fixpoint calls_delayed (delayed : bool) (tr : trace) : bool :=
  match tr with
  | [] => true
  | Sleep site _ :: rest => calls_delayed (is_pre_attempt site) rest
  | Invoke _ :: rest => delayed && calls_delayed false rest
  end.

(** ** More of config.py, agents.py and crew.py *)

(** [max(a, b)]: the first argument unless the second is strictly greater. *)
Definition py_max (a b : Q) : Q :=
  match (b ?= a)%Q with
  | Gt => b
  | _ => a
  end.

(** [str(n)] for a non-negative integer. *)
Definition str_nat (n : nat) : string :=
  NilEmpty.string_of_uint (Nat.to_uint n).

(** [str(x)] for the exceptions that leave the retry loops. *)
Definition exn_message (x : exn) : string :=
  match x with
  | Original message => message
  | RateLimitExceeded max_attempts _ =>
      ("Rate limit exceeded after " ++ str_nat max_attempts
       ++ " attempts. Please wait and try again.")%string
  | AllAttemptsFailed => "LLM: All rate limit retry attempts failed"
  end.

(** The sleep of the [try] block of [GameBuilderCrew._rate_limit_callback]:
    [max(base_delay, adaptive_delay)] with [base_delay = 15]. *)
Definition _rate_limit_callback (cls : GeminiConfig)
  (consecutive_errors : nat) : Q :=
  let base_delay := 15%Q in
  let adaptive_delay := get_adaptive_delay cls consecutive_errors in
  py_max base_delay adaptive_delay.

(** [GameBuilderCrew._create_error_response(error_type)] *)
Definition _create_error_response (error_type : string) : string :=
  if String.eqb error_type "rate_limit_exceeded" then
"
# Game Creation Failed - Rate Limit Exceeded

Unfortunately, the Google Gemini API rate limit has been exceeded and automatic recovery failed.

## What happened:
- The AI agents hit the API rate limit (requests per minute)
- Multiple automatic retry attempts were made with increasing wait times
- Maximum retry attempts were reached

## Solutions:
1. **Wait and retry**: Wait 5-10 minutes and run the program again
2. **Check API quotas**: Visit Google Cloud Console to check your API rate limits
3. **Upgrade plan**: Consider upgrading your Google Cloud billing plan for higher limits
4. **Use different API key**: If you have another API key, try using that
5. **Simplify request**: Try creating a simpler game to reduce API calls

## The system automatically:
- Waits 60+ seconds between retries
- Adds delays between agent steps
- Limits requests per minute to 3
- Uses exponential backoff for retries

## To retry:
Wait 5-10 minutes and run the program again. The rate limits should reset.
"
  else if String.eqb error_type "quota_exceeded" then
"
# Game Creation Failed - Quota Exceeded

Unfortunately, the Google Gemini API quota has been exceeded and automatic recovery failed.

## What happened:
- The AI agents made too many requests to the Gemini API
- Multiple automatic retry attempts were made
- Quota restoration waiting periods were completed
- Maximum retry attempts were reached

## Solutions:
1. **Wait and retry**: Wait 1-2 hours and run the program again
2. **Check quotas**: Visit Google Cloud Console to check your API quotas
3. **Upgrade plan**: Consider upgrading your Google Cloud billing plan
4. **Use different API key**: If you have another API key, try using that
5. **Simplify request**: Try creating a simpler game to reduce API usage

## To retry:
Run the program again with a simpler game prompt or wait for quota restoration.
"
  else if String.eqb error_type "max_retries_exceeded" then
"
# Game Creation Failed - Maximum Retries Exceeded

The system attempted multiple times to complete your game creation but encountered persistent issues.

## What to try:
1. Check your internet connection
2. Verify your Google API key is valid
3. Ensure you have sufficient API quota and rate limits
4. Try again with a simpler game description
5. Check Google Cloud Console for any service issues
6. Wait 10-15 minutes for rate limits to reset

## To retry:
Wait a few minutes and try running the program again.
"
  else ("Game creation failed due to: " ++ error_type)%string.

(** The value of [run] as the caller receives it: the crew result as it
    is, an error response as its text. *)
Definition response_text {V : Type} (r : run_value V) : V + string :=
  match r with
  | CrewOutput result => inl result
  | ErrorResponse error_type => inr (_create_error_response error_type)
  end.

(** The test of [main.py] on a string returned by [run_with_monitoring]:
    ["# Game Creation Failed" in result]. *)
Definition reports_failure (result : string) : bool :=
  "# Game Creation Failed" in_ result.

(** The agents of [GameBuilderAgents], by role. *)
Inductive agent_role : Type :=
| SeniorSoftwareEngineer
| SoftwareQualityControlEngineer
| ChiefSoftwareQualityControlEngineer
| FallbackGameDeveloper.

(** [GameBuilderAgents.get_agent_with_fallback(agent_type)].  The
    constructors it calls belong to other libraries: [agent_error role] is
    the message of the exception that building the agent of that role
    raises, if it raises, and [llm_error] that of building the fallback
    LLM.  The result is the agent returned or the message of the exception
    raised. *)
Definition get_agent_with_fallback
  (agent_error : agent_role -> option string) (llm_error : option string)
  (agent_type : string) : agent_role + string :=
  let build role :=
    match agent_error role with
    | None => inl role
    | Some e => inr e
    end in
  let primary :=
    if String.eqb agent_type "senior" then build SeniorSoftwareEngineer
    else if String.eqb agent_type "qa" then
      build SoftwareQualityControlEngineer
    else if String.eqb agent_type "chief" then
      build ChiefSoftwareQualityControlEngineer
    else inr ("Unknown agent type: " ++ agent_type)%string in
  match primary with
  | inl agent => inl agent
  | inr e =>
      let fallback :=
        match llm_error with
        | Some fallback_error => inr fallback_error
        | None => build FallbackGameDeveloper
        end in
      match fallback with
      | inl agent => inl agent
      | inr fallback_error =>
          inr ("Could not create " ++ agent_type ++ " agent: " ++ e
               ++ ", Fallback also failed: " ++ fallback_error)%string
      end
  end.

(** ** tools.py *)

Module Tools.

(** [sep.join(items)] *)
Fixpoint join (sep : string) (items : list string) : string :=
  match items with
  | [] => ""
  | [item] => item
  | item :: rest => (item ++ sep ++ join sep rest)%string
  end.

Definition dangerous_functions : list string :=
  [ "eval"; "exec"; "input"; "__import__"; "open" ].

(** The list [security_issues] that [scan_security_issues] builds. *)
Definition security_issues (code : string) : list string :=
  flat_map
    (fun func =>
       if (func ++ "(")%string in_ code
       then ["Potentially dangerous function '" ++ func ++ "' found"]%string
       else [])
    dangerous_functions
  ++ (if ("subprocess" in_ code) || ("os.system" in_ code)
      then ["Shell command execution detected"] else [])
  ++ (if ("open(" in_ code) && (("w" in_ code) || ("a" in_ code))
      then ["File write operations detected"] else []).

(** [GameBuilderTools.scan_security_issues(code)] *)
Definition scan_security_issues (code : string) : string :=
  match security_issues code with
  | [] => "No obvious security issues detected."
  | issues => ("Security issues found: " ++ join "; " issues)%string
  end.

(** The substrings that [scan_security_issues] looks for. *)
Definition scanned_patterns : list string :=
  [ "eval("; "exec("; "input("; "__import__("; "open(";
    "subprocess"; "os.system" ].

End Tools.

(** ** main.py: the command line *)

Module Main.

(** [c.isspace()] for an ASCII character. *)
Definition isspace (c : ascii) : bool :=
  let n := nat_of_ascii c in
  ((9 <=? n) && (n <=? 13)) || ((28 <=? n) && (n <=? 32)).

(** [c.isdigit()] for an ASCII character. *)
Definition isdigit (c : ascii) : bool :=
  let n := nat_of_ascii c in
  (48 <=? n) && (n <=? 57).

(** [s.lstrip()] *)
Fixpoint lstrip (s : string) : string :=
  match s with
  | EmptyString => EmptyString
  | String c rest => if isspace c then lstrip rest else s
  end.

(** [s.rstrip()] *)
Fixpoint rstrip (s : string) : string :=
  match s with
  | EmptyString => EmptyString
  | String c rest =>
      match rstrip rest with
      | EmptyString => if isspace c then EmptyString else String c EmptyString
      | kept => String c kept
      end
  end.

(** [s.strip()] *)
Definition strip (s : string) : string := rstrip (lstrip s).

(** The digits of a decimal literal after its first digit: digits, with
    single underscores between them. *)
Fixpoint int_digits (acc : Z) (after_underscore : bool) (s : string)
  : option Z :=
  match s with
  | EmptyString => if after_underscore then None else Some acc
  | String c rest =>
      if isdigit c then
        int_digits (acc * 10 + Z.of_nat (nat_of_ascii c - 48)) false rest
      else if Ascii.eqb c "_" then
        if after_underscore then None else int_digits acc true rest
      else None
  end.

Definition int_unsigned (s : string) : option Z :=
  match s with
  | EmptyString => None
  | String c _ => if isdigit c then int_digits 0 false s else None
  end.

(** [int(s)] for a string in base 10; [None] is [ValueError]. *)
Definition int (s : string) : option Z :=
  match strip s with
  | String "+" digits => int_unsigned digits
  | String "-" digits => option_map Z.opp (int_unsigned digits)
  | digits => int_unsigned digits
  end.

(** How far [train()] gets before it asks for confirmation. *)
Inductive train_start : Type :=
| Usage
| InvalidIterations
| AskConfirmation (n_iterations : Z) (filename : string)
    (estimated_calls : Z).

(** [train()] up to the prompt "Continue with training?", on [sys.argv]. *)
Definition train (argv : list string) : train_start :=
  if length argv <? 3 then Usage
  else
    match int (nth 1 argv "") with
    | None => InvalidIterations
    | Some n_iterations =>
        let filename := nth 2 argv "" in
        let estimated_calls := (n_iterations * 6)%Z in
        AskConfirmation n_iterations filename estimated_calls
    end.

(** What the [__main__] block does with [sys.argv]. *)
Inductive action : Type :=
| Interactive
| Train (start : train_start)
| Monitor
| Help
| UnknownCommand (command : string).

Definition main (argv : list string) : action :=
  if 1 <? length argv then
    let command := PyStr.lower (nth 1 argv "") in
    if String.eqb command "train" then Train (train argv)
    else if String.eqb command "monitor" then Monitor
    else if String.eqb command "help" then Help
    else UnknownCommand command
  else Interactive.


(** ** main.py: the custom prompt *)

(** [GAME_EXAMPLES['example3_snake']] *)
Definition example3_snake : string :=
"
        Create a Snake game using Python and Pygame.
        The game should have:
        - A snake that grows when eating food
        - Food items that appear randomly
        - Game over when snake hits walls or itself
        - Score tracking
        - Smooth movement and controls
        Keep the code concise and under 150 lines.
    ".

(** The f-string [enhanced_prompt] of [get_custom_game_prompt]. *)
Definition enhanced_prompt (final_prompt : string) : string :=
  ("
Create a game using Python and Pygame based on this description:

" ++ final_prompt ++ "

Technical Requirements:
- Use Python and Pygame library
- Include proper game loop with event handling
- Add basic collision detection if needed
- Include score tracking if applicable
- Keep the code concise and well-structured
- Ensure the game is playable and complete
- Add comments for major sections only (to reduce code length)

Make sure the game is functional and can be run directly.
")%string.

Definition newline : string := String "010"%char EmptyString.

(** [game_prompt and game_prompt[-1] == ""] *)
Definition ends_with_blank (game_prompt : list string) : bool :=
  match game_prompt with
  | [] => false
  | _ => String.eqb (last game_prompt "") ""
  end.

(** The loop of [get_custom_game_prompt] that reads the description: the
    lines that [input()] will return, the list [game_prompt] so far; the
    result is [game_prompt] at the [break] with the lines not read, or
    [None] when [input()] raises [EOFError]. *)
Fixpoint read_game_prompt (stdin game_prompt : list string)
  : option (list string * list string) :=
  match stdin with
  | [] => None
  | line :: rest =>
      if String.eqb line "" && ends_with_blank game_prompt
      then Some (game_prompt, rest)
      else read_game_prompt rest (game_prompt ++ [line])
  end.

(** [get_custom_game_prompt()]: the prompt returned and the lines of input
    left unread. *)
Definition get_custom_game_prompt (stdin : list string)
  : option (string * list string) :=
  match read_game_prompt stdin [] with
  | None => None
  | Some (game_prompt, rest) =>
      let game_prompt :=
        if ends_with_blank game_prompt then removelast game_prompt
        else game_prompt in
      let final_prompt := strip (Tools.join newline game_prompt) in
      if String.eqb final_prompt "" then Some (example3_snake, rest)
      else Some (enhanced_prompt final_prompt, rest)
  end.

(** Every empty line of the list is followed by a line that is not
    empty. *)
Fixpoint no_blank_pair (lines : list string) : bool :=
  match lines with
  | [] => true
  | line :: rest =>
      negb (String.eqb line ""
            && match rest with
               | [] => true
               | next :: _ => String.eqb next ""
               end)
      && no_blank_pair rest
  end.

(** If [game_prompt] ends with an empty line, the next of [lines] is not
    empty. *)
Definition awaits_text (game_prompt lines : list string) : Prop :=
  ends_with_blank game_prompt = true ->
  match lines with
  | [] => False
  | line :: _ => line <> ""
  end.

(** All characters of a string are white space. *)
Fixpoint all_space (s : string) : bool :=
  match s with
  | EmptyString => true
  | String c rest => isspace c && all_space rest
  end.

End Main.

(** ** pacman.py *)

Module Pacman.

Local Open Scope Z_scope.

Definition maze : list (list Z) :=
  [ [1; 1; 1; 1; 1; 1; 1; 1; 1; 1; 1; 1; 1; 1; 1; 1; 1; 1; 1; 1];
    [1; 0; 0; 0; 0; 0; 0; 0; 0; 1; 0; 0; 0; 0; 0; 0; 0; 0; 0; 1];
    [1; 0; 1; 1; 0; 1; 1; 1; 0; 1; 0; 1; 1; 1; 0; 1; 1; 1; 0; 1];
    [1; 0; 1; 0; 0; 0; 0; 0; 0; 0; 0; 0; 0; 0; 0; 0; 0; 1; 0; 1];
    [1; 0; 1; 0; 1; 1; 1; 1; 1; 1; 1; 1; 1; 1; 1; 1; 0; 1; 0; 1];
    [1; 0; 0; 0; 0; 0; 0; 0; 0; 0; 0; 0; 0; 0; 0; 0; 0; 0; 0; 1];
    [1; 0; 1; 1; 1; 1; 0; 1; 1; 1; 1; 1; 0; 1; 1; 1; 1; 1; 0; 1];
    [1; 0; 0; 0; 0; 0; 0; 0; 0; 0; 0; 0; 0; 0; 0; 0; 0; 0; 0; 1];
    [1; 1; 1; 1; 1; 1; 1; 1; 1; 1; 1; 1; 1; 1; 1; 1; 1; 1; 1; 1] ].

(** [len(maze[0])] and [len(maze)] *)
Definition columns : Z := Z.of_nat (length (nth 0 maze [])).
Definition rows : Z := Z.of_nat (length maze).

(** [maze[y][x]] for indices within the bounds. *)
Definition cell (x y : Z) : Z :=
  nth (Z.to_nat x) (nth (Z.to_nat y) maze []) 1.

(** The guard of [PacMan.move] and of [Ghost.move_safe]. *)
Definition open_cell (new_x new_y : Z) : bool :=
  (0 <=? new_x) && (new_x <? columns) && (0 <=? new_y) && (new_y <? rows)
  && (cell new_x new_y =? 0).

Module PacMan.

Record t : Type := {
  x : Z;
  y : Z;
  direction : string;
  score : Z;
  lives : Z
}.

(** [PacMan.__init__] *)
Definition init : t :=
  {| x := 1; y := 1; direction := "right"; score := 0; lives := 3 |}.

(** [PacMan.move(dx, dy)] *)
Definition move (self : t) (dx dy : Z) : t :=
  let new_x := x self + dx in
  let new_y := y self + dy in
  if open_cell new_x new_y then
    {| x := new_x; y := new_y; direction := direction self;
       score := score self; lives := lives self |}
  else self.

End PacMan.

Module Ghost.

Record t : Type := {
  x : Z;
  y : Z;
  color : Z * Z * Z;
  frightened : bool;
  frightened_timer : Z
}.

(** [Ghost.__init__(color, x, y)] *)
Definition init (color : Z * Z * Z) (x y : Z) : t :=
  {| x := x; y := y; color := color; frightened := false;
     frightened_timer := 0 |}.

(** [Ghost.move_safe(dx, dy)] *)
Definition move_safe (self : t) (dx dy : Z) : t :=
  let new_x := x self + dx in
  let new_y := y self + dy in
  if open_cell new_x new_y then
    {| x := new_x; y := new_y; color := color self;
       frightened := frightened self;
       frightened_timer := frightened_timer self |}
  else self.

(** [Ghost.move()], with the global [pacman] it reads. *)
Definition move (self : t) (pacman : PacMan.t) : t :=
  if negb (frightened self) then
    let dx :=
      if x self <? PacMan.x pacman then 1
      else if PacMan.x pacman <? x self then -1
      else 0 in
    let dy :=
      if y self <? PacMan.y pacman then 1
      else if PacMan.y pacman <? y self then -1
      else 0 in
    move_safe self dx dy
  else self.

End Ghost.

Definition RED : Z * Z * Z := (255, 0, 0).
Definition PINK : Z * Z * Z := (255, 105, 180).
Definition CYAN : Z * Z * Z := (0, 255, 255).
Definition ORANGE : Z * Z * Z := (255, 165, 0).

(** The global variables of the game, and [pygame.time.get_ticks] as the
    list of the values its coming calls return (0 once the list is used
    up). *)
Record game : Type := {
  pacman : PacMan.t;
  ghosts : list Ghost.t;
  pellets : list (Z * Z);
  power_pellets : list (Z * Z);
  running : bool;
  clock : list Z
}.

(** The cells [(x, y)] of one row of the maze that hold 0, by increasing
    [x]. *)
Fixpoint row_pellets (row : list Z) (x y : Z) : list (Z * Z) :=
  match row with
  | [] => []
  | c :: rest =>
      (if c =? 0 then [(x, y)] else []) ++ row_pellets rest (x + 1) y
  end.

(** The two nested [for] loops that fill [pellets]. *)
Fixpoint all_pellets (rows_ : list (list Z)) (y : Z) : list (Z * Z) :=
  match rows_ with
  | [] => []
  | row :: rest => row_pellets row 0 y ++ all_pellets rest (y + 1)
  end.

(** The state when the game loop is entered. *)
Definition start (clock : list Z) : game :=
  {| pacman := PacMan.init;
     ghosts := [ Ghost.init RED 10 10; Ghost.init PINK 10 12;
                 Ghost.init CYAN 12 10; Ghost.init ORANGE 12 12 ];
     pellets := all_pellets maze 0;
     power_pellets :=
       [ (0, 0); (0, rows - 1); (columns - 1, 0); (columns - 1, rows - 1) ];
     running := true;
     clock := clock |}.

(** What one iteration of the game loop reads: whether a QUIT event is in
    the queue, and the arrow keys held down. *)
Record frame_input : Type := {
  quit : bool;
  K_LEFT : bool;
  K_RIGHT : bool;
  K_UP : bool;
  K_DOWN : bool
}.

Definition set_pacman (g : game) (p : PacMan.t) : game :=
  {| pacman := p; ghosts := ghosts g; pellets := pellets g;
     power_pellets := power_pellets g; running := running g;
     clock := clock g |}.

Definition set_running (g : game) (b : bool) : game :=
  {| pacman := pacman g; ghosts := ghosts g; pellets := pellets g;
     power_pellets := power_pellets g; running := b; clock := clock g |}.

(** The keyboard part of the loop body. *)
Definition handle_keys (i : frame_input) (p : PacMan.t) : PacMan.t :=
  let p := if K_LEFT i then PacMan.move p (-1) 0 else p in
  let p := if K_RIGHT i then PacMan.move p 1 0 else p in
  let p := if K_UP i then PacMan.move p 0 (-1) else p in
  if K_DOWN i then PacMan.move p 0 1 else p.

(** The collision loop over the ghosts: the lives left and [running]. *)
Fixpoint collisions (gs : list Ghost.t) (p : PacMan.t) (running_ : bool)
  : PacMan.t * bool :=
  match gs with
  | [] => (p, running_)
  | ghost :: rest =>
      if negb (Ghost.frightened ghost)
         && (PacMan.x p =? Ghost.x ghost) && (PacMan.y p =? Ghost.y ghost)
      then
        let p' :=
          {| PacMan.x := PacMan.x p; PacMan.y := PacMan.y p;
             PacMan.direction := PacMan.direction p;
             PacMan.score := PacMan.score p;
             PacMan.lives := PacMan.lives p - 1 |} in
        collisions rest p' (if PacMan.lives p' =? 0 then false else running_)
      else collisions rest p running_
  end.

(** The loop [for i in range(len(pellets) - 1, -1, -1)]: the entries are
    visited from the last to the first; the result is the list left and
    the number of entries deleted. *)
Fixpoint eat (px py : Z) (items : list (Z * Z)) : list (Z * Z) * Z :=
  match items with
  | [] => ([], 0)
  | (pellet_x, pellet_y) :: rest =>
      let '(rest', eaten) := eat px py rest in
      if (px =? pellet_x) && (py =? pellet_y) then (rest', eaten + 1)
      else ((pellet_x, pellet_y) :: rest', eaten)
  end.

(** [for ghost in ghosts: ghost.frightened = True; ghost.frightened_timer =
    pygame.time.get_ticks()] *)
Fixpoint frighten (gs : list Ghost.t) (clock_ : list Z)
  : list Ghost.t * list Z :=
  match gs with
  | [] => ([], clock_)
  | ghost :: rest =>
      let ghost' :=
        {| Ghost.x := Ghost.x ghost; Ghost.y := Ghost.y ghost;
           Ghost.color := Ghost.color ghost; Ghost.frightened := true;
           Ghost.frightened_timer := hd 0 clock_ |} in
      let '(rest', clock') := frighten rest (tl clock_) in
      (ghost' :: rest', clock')
  end.

(** The loop over [power_pellets], from the last entry to the first. *)
Fixpoint eat_power (p : PacMan.t) (items : list (Z * Z))
  (gs : list Ghost.t) (clock_ : list Z)
  : list (Z * Z) * PacMan.t * list Ghost.t * list Z :=
  match items with
  | [] => ([], p, gs, clock_)
  | (pellet_x, pellet_y) :: rest =>
      let '(rest', p1, gs1, clock1) := eat_power p rest gs clock_ in
      if (PacMan.x p1 =? pellet_x) && (PacMan.y p1 =? pellet_y) then
        let p2 :=
          {| PacMan.x := PacMan.x p1; PacMan.y := PacMan.y p1;
             PacMan.direction := PacMan.direction p1;
             PacMan.score := PacMan.score p1 + 50;
             PacMan.lives := PacMan.lives p1 |} in
        let '(gs2, clock2) := frighten gs1 clock1 in
        (rest', p2, gs2, clock2)
      else ((pellet_x, pellet_y) :: rest', p1, gs1, clock1)
  end.

(** The warp tunnels. *)
Definition warp (p : PacMan.t) : PacMan.t :=
  let p1 :=
    if PacMan.x p =? -1 then
      {| PacMan.x := columns - 1; PacMan.y := PacMan.y p;
         PacMan.direction := PacMan.direction p;
         PacMan.score := PacMan.score p; PacMan.lives := PacMan.lives p |}
    else p in
  if PacMan.x p1 =? columns then
    {| PacMan.x := 0; PacMan.y := PacMan.y p1;
       PacMan.direction := PacMan.direction p1;
       PacMan.score := PacMan.score p1; PacMan.lives := PacMan.lives p1 |}
  else p1.

(** One iteration of the body of [while running], drawing left out. *)
Definition frame (i : frame_input) (g : game) : game :=
  let running1 := if quit i then false else running g in
  let p1 := handle_keys i (pacman g) in
  let gs1 := map (fun ghost => Ghost.move ghost p1) (ghosts g) in
  let '(p2, running2) := collisions gs1 p1 running1 in
  let '(pellets', eaten) := eat (PacMan.x p2) (PacMan.y p2) (pellets g) in
  let p3 :=
    {| PacMan.x := PacMan.x p2; PacMan.y := PacMan.y p2;
       PacMan.direction := PacMan.direction p2;
       PacMan.score := PacMan.score p2 + 10 * eaten;
       PacMan.lives := PacMan.lives p2 |} in
  let '(power', p4, gs2, clock') :=
    eat_power p3 (power_pellets g) gs1 (clock g) in
  {| pacman := warp p4; ghosts := gs2; pellets := pellets';
     power_pellets := power'; running := running2; clock := clock' |}.

(** The game loop on the inputs of the coming iterations. *)
Fixpoint play (inputs : list frame_input) (g : game) : game :=
  match inputs with
  | [] => g
  | i :: rest => if running g then play rest (frame i g) else g
  end.

(** A ghost below the last row of the maze. *)
Definition outside (ghost : Ghost.t) : Prop := rows < Ghost.y ghost.

(** What every state of the game loop satisfies. *)
Record invariant (clock0 : list Z) (g : game) : Prop := {
  inv_open : open_cell (PacMan.x (pacman g)) (PacMan.y (pacman g)) = true;
  inv_ghosts : ghosts g = ghosts (start clock0);
  inv_power : power_pellets g = power_pellets (start clock0);
  inv_clock : clock g = clock0;
  inv_lives : PacMan.lives (pacman g) = 3;
  inv_score :
    PacMan.score (pacman g) + 10 * Z.of_nat (length (pellets g))
    = 10 * Z.of_nat (length (pellets (start clock0)));
  inv_score_pos : 0 <= PacMan.score (pacman g)
}.

End Pacman.

(** The value of [consecutive_errors] that the outcome and the events of a
    run account for: 0 after a returned crew result, otherwise the value
    before the run plus one for every rate-limit wait and every error
    back-off. *)
Definition counter_after {V : Type} (consecutive_errors : nat)
  (r : (outcome (run_value V) * nat) * trace) : nat :=
  match fst (fst r) with
  | Returned (CrewOutput _) => 0
  | _ =>
      consecutive_errors
      + length (waits_at RateLimitWait (snd r))
      + length (waits_at ErrorBackoff (snd r))
  end.

(** ** Shapes of traces used in the statements *)

(** The events [tr] end with invocation [last], the invocations of [tr] are
    [first, ..., last] in this order, and every invocation before [last]
    raised an exception that [absorbed] accepts. *)
Definition absorbed_until {V : Type} (call : nat -> attempt V)
  (absorbed : string -> bool) (first last : nat) (tr : trace) : Prop :=
  (exists tr', tr = tr' ++ [Invoke last]) /\
  invocations tr = seq first (S last - first) /\
  (forall j, first <= j < last -> fails_with absorbed (call j) = true).

(** The number of invocations [first, ..., last] that raise an exception
    which the test of [run] takes for a rate-limit error. *)
Definition rate_limit_failures {V : Type} (call : nat -> attempt V)
  (first last : nat) : nat :=
  length (filter (fun j => fails_with crew_is_rate_limit (call j))
            (seq first (S last - first))).

(** The seconds that the head of the [try] block of [run] sleeps when
    [self.consecutive_errors] holds the given value: the adaptive delay if
    it is greater than [REQUEST_DELAY], otherwise [REQUEST_DELAY]. *)
Definition head_delay_seconds (cls : GeminiConfig)
  (consecutive_errors : nat) : Q :=
  let adaptive_delay := get_adaptive_delay cls consecutive_errors in
  if py_gt adaptive_delay (REQUEST_DELAY cls) then adaptive_delay
  else REQUEST_DELAY cls.

(** Every invocation of a trace comes directly after a sleep of the head of
    the [try] block, and that sleep lasts [head_delay_seconds] for the
    value of [consecutive_errors] at that moment: the given value, plus one
    for every rate-limit wait and error back-off slept before.  [pending]
    holds the seconds of a sleep of the head of the [try] block when it is
    the event just before the trace. *)
Fixpoint calls_follow_head_delay (cls : GeminiConfig)
  (consecutive_errors : nat) (pending : option Q) (tr : trace) : Prop :=
  match tr with
  | [] => True
  | Sleep site seconds :: rest =>
      if is_pre_attempt site
      then calls_follow_head_delay cls consecutive_errors (Some seconds) rest
      else calls_follow_head_delay cls (S consecutive_errors) None rest
  | Invoke _ :: rest =>
      pending = Some (head_delay_seconds cls consecutive_errors) /\
      calls_follow_head_delay cls consecutive_errors None rest
  end.

(** The number of increments of [self.consecutive_errors] that [run] has
    made when it has performed the events [tr]: one with every rate-limit
    wait and one with every error back-off. *)
Definition errors_before (tr : trace) : nat :=
  length (waits_at RateLimitWait tr) + length (waits_at ErrorBackoff tr).

(** ** Wrapped calls and configurations used as examples *)

(** A call that raises the same exception every time. *)
Definition always_fails {V : Type} (message : string) : nat -> attempt V :=
  fun _ => Fail message.

(** A call that raises [message] on its first [failures] invocations and
    returns [v] afterwards. *)
Definition fails_then_succeeds {V : Type} (failures : nat) (message : string)
  (v : V) : nat -> attempt V :=
  fun i => if i <? failures then Fail message else Ok v.

(** The source's settings with a budget of three attempts. *)
Definition scenario_config : GeminiConfig := {|
  REQUEST_DELAY := 3;
  MAX_QUOTA_RETRIES := 3;
  QUOTA_WAIT_TIME := 65;
  EXPONENTIAL_BACKOFF_BASE := 2;
  MAX_BACKOFF_TIME := 300
|}.

(** An exception that reports the number of attempts made and holds the
    last exception of the wrapped call. *)
Definition exhausted_error (x : exn) (attempts_made : nat)
  (last_error : string) : Prop :=
  x = RateLimitExceeded attempts_made last_error.

(** * Properties *)

(** ** Strings *)

Module PyStrFacts.
Import PyStr.

Lemma startswith_spec (needle hay : string) :
  startswith needle hay = true <->
  exists post, hay = (needle ++ post)%string.
Proof.
  revert hay; induction needle as [|a n IH]; intros hay; simpl.
  - split; [intros _; now exists hay | reflexivity].
  - destruct hay as [|b h].
    + split; [discriminate | intros [post H]; discriminate].
    + rewrite andb_true_iff, Ascii.eqb_eq, IH. split.
      * intros [-> [post ->]]. now exists post.
      * intros [post H]. injection H as -> ->. split; [reflexivity | now exists post].
Qed.

Lemma contains_spec (needle hay : string) :
  contains needle hay = true <-> substring_of needle hay.
Proof.
  unfold substring_of. induction hay as [|c h IH].
  - cbn [contains]. rewrite orb_false_r, startswith_spec. split.
    + intros [post H]. now exists EmptyString, post.
    + intros [pre [post H]]. destruct pre; [now exists post | discriminate].
  - cbn [contains]. rewrite orb_true_iff, startswith_spec, IH. split.
    + intros [[post H] | [pre [post H]]].
      * now exists EmptyString, post.
      * exists (String c pre), post. simpl. now rewrite H.
    + intros [pre [post H]]. destruct pre as [|a pre].
      * left. now exists post.
      * right. simpl in H. injection H as _ H. now exists pre, post.
Qed.

Lemma lower_app (a b : string) :
  lower (a ++ b) = (lower a ++ lower b)%string.
Proof. induction a as [|c a IH]; simpl; [reflexivity | now rewrite IH]. Qed.

Lemma substring_of_lower (needle hay : string) :
  lower needle = needle ->
  substring_of needle hay -> substring_of needle (lower hay).
Proof.
  intros Hn [pre [post ->]]. exists (lower pre), (lower post).
  now rewrite !lower_app, Hn.
Qed.

End PyStrFacts.

(** ** The classifiers *)

Lemma existsb_contains_spec (indicators : list string) (s : string) :
  existsb (fun indicator => indicator in_ s) indicators = true <->
  exists indicator,
    In indicator indicators /\ PyStr.substring_of indicator s.
Proof.
  rewrite existsb_exists.
  split; intros [x [Hin H]]; exists x; split; trivial;
    now apply PyStrFacts.contains_spec.
Qed.

Lemma agent_is_rate_limit_existsb (e : string) :
  agent_is_rate_limit e =
  existsb (fun indicator => indicator in_ PyStr.lower e) agent_indicators.
Proof.
  unfold agent_is_rate_limit, agent_indicators, is_quota_error.
  rewrite existsb_app. cbn [existsb]. rewrite orb_false_r, !orb_assoc.
  reflexivity.
Qed.

Lemma crew_is_rate_limit_existsb (e : string) :
  crew_is_rate_limit e =
  existsb (fun indicator => indicator in_ PyStr.lower e) crew_indicators.
Proof.
  unfold crew_is_rate_limit, crew_indicators.
  rewrite existsb_app, <- agent_is_rate_limit_existsb.
  unfold agent_is_rate_limit. cbn [existsb].
  rewrite orb_false_r, !orb_assoc. reflexivity.
Qed.

Lemma crew_indicators_lower (indicator : string) :
  In indicator crew_indicators -> PyStr.lower indicator = indicator.
Proof.
  unfold crew_indicators, agent_indicators, quota_indicators. simpl.
  intros H. repeat (destruct H as [<- | H]; [reflexivity |]). contradiction.
Qed.

Lemma agent_implies_crew (e : string) :
  agent_is_rate_limit e = true -> crew_is_rate_limit e = true.
Proof.
  unfold crew_is_rate_limit, agent_is_rate_limit. intros ->. reflexivity.
Qed.

(** ** Arithmetic of the delays *)

Section Delays.
Local Open Scope Q_scope.

Lemma py_min_spec (a b : Q) :
  (b < a /\ py_min a b = b) \/ (a <= b /\ py_min a b = a).
Proof.
  unfold py_min. destruct (b ?= a) eqn:E.
  - right. apply Qeq_alt in E. split; [rewrite E; apply Qle_refl | reflexivity].
  - left. apply Qlt_alt in E. now split.
  - right. apply Qgt_alt in E. split; [now apply Qlt_le_weak | reflexivity].
Qed.

Lemma py_min_le_l (a b : Q) : py_min a b <= a.
Proof.
  destruct (py_min_spec a b) as [[H ->] | [H ->]];
    [now apply Qlt_le_weak | apply Qle_refl].
Qed.

Lemma py_min_le_r (a b : Q) : py_min a b <= b.
Proof.
  destruct (py_min_spec a b) as [[H ->] | [H ->]];
    [apply Qle_refl | assumption].
Qed.

Lemma py_min_glb (a b c : Q) : c <= a -> c <= b -> c <= py_min a b.
Proof.
  intros Ha Hb. destruct (py_min_spec a b) as [[_ ->] | [_ ->]]; assumption.
Qed.

Lemma py_min_mono (a a' b b' : Q) :
  a <= a' -> b <= b' -> py_min a b <= py_min a' b'.
Proof.
  intros Ha Hb. apply py_min_glb.
  - apply Qle_trans with a; [apply py_min_le_l | assumption].
  - apply Qle_trans with b; [apply py_min_le_r | assumption].
Qed.

Lemma py_pow_ge_1 (base : Q) (n : nat) : 1 <= base -> 1 <= py_pow base n.
Proof.
  intros Hb. induction n as [|n IH]; simpl; [apply Qle_refl | nra].
Qed.

Lemma py_pow_mono (base : Q) (i j : nat) :
  1 <= base -> (i <= j)%nat -> py_pow base i <= py_pow base j.
Proof.
  intros Hb Hij. induction Hij as [|j Hij IH]; [apply Qle_refl |].
  simpl. pose proof (py_pow_ge_1 base j Hb). nra.
Qed.

Lemma quota_wait_time_le_max (cls : GeminiConfig) (n : nat) :
  quota_wait_time cls n <= MAX_BACKOFF_TIME cls.
Proof. apply py_min_le_r. Qed.

Lemma quota_wait_time_mono (cls : GeminiConfig) (i j : nat) :
  0 < QUOTA_WAIT_TIME cls -> 1 <= EXPONENTIAL_BACKOFF_BASE cls ->
  (i <= j)%nat -> quota_wait_time cls i <= quota_wait_time cls j.
Proof.
  intros Hw Hb Hij. unfold quota_wait_time.
  apply py_min_mono; [| apply Qle_refl].
  apply Qmult_le_l; [assumption |].
  apply py_min_mono; [now apply py_pow_mono | apply Qle_refl].
Qed.

(** The two nested [min] of the source amount to the single cap of the
    closed formula [min(base_wait * base ** n, MAX_BACKOFF_TIME)]. *)
Lemma quota_wait_time_formula (cls : GeminiConfig) (n : nat) :
  0 < QUOTA_WAIT_TIME cls ->
  quota_wait_time cls n ==
  py_min (QUOTA_WAIT_TIME cls * py_pow (EXPONENTIAL_BACKOFF_BASE cls) n)
         (MAX_BACKOFF_TIME cls).
Proof.
  intros Hw. unfold quota_wait_time.
  set (w := QUOTA_WAIT_TIME cls) in *.
  set (m := MAX_BACKOFF_TIME cls).
  set (p := py_pow (EXPONENTIAL_BACKOFF_BASE cls) n).
  assert (Hdiv : w * (m / w) == m) by (apply Qmult_div_r; lra).
  destruct (py_min_spec p (m / w)) as [[Hlt ->] | [Hle ->]];
    [| reflexivity].
  assert (Hbig : m < w * p).
  { rewrite <- Hdiv. now apply Qmult_lt_l. }
  destruct (py_min_spec (w * (m / w)) m) as [[H1 ->] | [H1 ->]];
    destruct (py_min_spec (w * p) m) as [[H2 ->] | [H2 ->]];
    try reflexivity; try assumption; lra.
Qed.

Lemma get_adaptive_delay_formula (cls : GeminiConfig) (n : nat) :
  (1 <= n)%nat \/ REQUEST_DELAY cls <= MAX_BACKOFF_TIME cls ->
  get_adaptive_delay cls n ==
  py_min (REQUEST_DELAY cls *
          py_pow (EXPONENTIAL_BACKOFF_BASE cls) (Nat.min n 5))
         (MAX_BACKOFF_TIME cls).
Proof.
  intros H. unfold get_adaptive_delay. destruct n as [|n]; [| reflexivity].
  destruct H as [H | H]; [lia |]. cbn [Nat.eqb Nat.min py_pow].
  destruct (py_min_spec (REQUEST_DELAY cls * 1) (MAX_BACKOFF_TIME cls))
    as [[H1 ->] | [H1 ->]]; lra.
Qed.

Lemma get_adaptive_delay_capped (cls : GeminiConfig) (n : nat) :
  (5 <= n)%nat -> get_adaptive_delay cls n = get_adaptive_delay cls 5.
Proof.
  intros H. unfold get_adaptive_delay.
  destruct n as [|n]; [lia |]. cbn [Nat.eqb].
  now rewrite (Nat.min_r (S n) 5 H).
Qed.

Lemma get_adaptive_delay_le_max (cls : GeminiConfig) (n : nat) :
  (1 <= n)%nat \/ REQUEST_DELAY cls <= MAX_BACKOFF_TIME cls ->
  get_adaptive_delay cls n <= MAX_BACKOFF_TIME cls.
Proof.
  intros H. rewrite (get_adaptive_delay_formula cls n H). apply py_min_le_r.
Qed.

(** Below [MAX_QUOTA_RETRIES] the handler asks for a retry after ticking
    through the whole seconds of the exponential wait. *)
Lemma handle_quota_exceeded_retry (cls : GeminiConfig) (retry_count : nat) :
  (retry_count < MAX_QUOTA_RETRIES cls)%nat ->
  handle_quota_exceeded cls retry_count =
  (true, _show_wait_progress (quota_wait_time cls retry_count)).
Proof.
  intros H. unfold handle_quota_exceeded.
  destruct (Nat.leb_spec (MAX_QUOTA_RETRIES cls) retry_count);
    [lia | reflexivity].
Qed.

(** With [REQUEST_DELAY] no greater than the cap, the adaptive delay is
    non-decreasing from a count of 0 on; from a count of 1 on it is so
    without that condition. *)
Lemma get_adaptive_delay_mono (cls : GeminiConfig) (i j : nat) :
  0 < REQUEST_DELAY cls -> 1 <= EXPONENTIAL_BACKOFF_BASE cls ->
  (1 <= i)%nat \/ REQUEST_DELAY cls <= MAX_BACKOFF_TIME cls ->
  (i <= j)%nat ->
  get_adaptive_delay cls i <= get_adaptive_delay cls j.
Proof.
  intros Hd Hb H Hij.
  rewrite (get_adaptive_delay_formula cls i H).
  rewrite (get_adaptive_delay_formula cls j)
    by (destruct H; [left; lia | now right]).
  apply py_min_mono; [| apply Qle_refl].
  apply Qmult_le_l; [assumption |].
  apply py_pow_mono; [assumption | lia].
Qed.

End Delays.

(** ** Traces *)

Lemma invocations_app (a b : trace) :
  invocations (a ++ b) = invocations a ++ invocations b.
Proof.
  induction a as [|[s d | i] a IH]; simpl; [reflexivity | assumption |].
  now rewrite IH.
Qed.

Lemma waits_at_app (site : sleep_site) (a b : trace) :
  waits_at site (a ++ b) = waits_at site a ++ waits_at site b.
Proof.
  induction a as [|[s d | i] a IH]; simpl; [reflexivity | | assumption].
  destruct (sleep_site_eqb s site); simpl; now rewrite IH.
Qed.

Lemma fst_after {R : Type} (evs : trace) (r : R * trace) :
  fst (after evs r) = fst r.
Proof. reflexivity. Qed.

Lemma snd_after {R : Type} (evs : trace) (r : R * trace) :
  snd (after evs r) = evs ++ snd r.
Proof. reflexivity. Qed.

Lemma ends_with_after {R : Type} (evs : trace) (r : R * trace) (ev : event) :
  (exists tr, snd r = tr ++ [ev]) ->
  exists tr, snd (after evs r) = tr ++ [ev].
Proof.
  intros [tr H]. exists (evs ++ tr). now rewrite snd_after, H, app_assoc.
Qed.

(** ** The retry loop of [_generate] *)

Section AgentFacts.

Context {V : Type}.
Variable cls : GeminiConfig.
Variable super_generate : nat -> attempt V.

Let max_attempts := MAX_QUOTA_RETRIES cls.
Let loop := generate_loop cls super_generate.

(** Rate-limit failures on every remaining attempt use up the loop. *)
Lemma generate_loop_exhausts (remaining attempt_ : nat) :
  attempt_ + S remaining = max_attempts ->
  (forall i, attempt_ <= i ->
     fails_with agent_is_rate_limit (super_generate i) = true) ->
  exists e,
    super_generate (max_attempts - 1) = Fail e /\
    fst (loop (S remaining) attempt_)
      = Raised (RateLimitExceeded max_attempts e) /\
    invocations (snd (loop (S remaining) attempt_))
      = seq attempt_ (S remaining).
Proof.
  subst loop max_attempts. revert attempt_.
  induction remaining as [|remaining IH]; intros attempt_ Hsum Hfail.
  - pose proof (Hfail attempt_ (le_n _)) as Hf.
    cbn [generate_loop].
    destruct (super_generate attempt_) as [v | e] eqn:E;
      simpl in Hf; [discriminate |].
    rewrite Hf.
    replace (attempt_ <? MAX_QUOTA_RETRIES cls - 1) with false
      by (symmetry; apply Nat.ltb_ge; lia).
    exists e. replace (MAX_QUOTA_RETRIES cls - 1) with attempt_ by lia.
    repeat split; trivial.
    rewrite snd_after, invocations_app. simpl. rewrite app_nil_r.
    destruct (0 <? attempt_); reflexivity.
  - pose proof (Hfail attempt_ (le_n _)) as Hf.
    destruct (IH (S attempt_)) as [e [He [Hout Hinv]]];
      [lia | intros i Hi; apply Hfail; lia |].
    exists e. split; [assumption |].
    remember (S remaining) as r eqn:Hr.
    cbn [generate_loop].
    destruct (super_generate attempt_) as [v | e'] eqn:E;
      simpl in Hf; [discriminate |].
    rewrite Hf.
    replace (attempt_ <? MAX_QUOTA_RETRIES cls - 1) with true
      by (symmetry; apply Nat.ltb_lt; lia).
    rewrite !fst_after, !snd_after, !invocations_app, Hout, Hinv.
    split; [reflexivity |].
    destruct (0 <? attempt_); reflexivity.
Qed.

(** Rate-limit failures followed by a success within the budget. *)
Lemma generate_loop_succeeds (n remaining attempt_ : nat) (v : V) :
  attempt_ + remaining = max_attempts ->
  n < remaining ->
  (forall i, attempt_ <= i < attempt_ + n ->
     fails_with agent_is_rate_limit (super_generate i) = true) ->
  super_generate (attempt_ + n) = Ok v ->
  fst (loop remaining attempt_) = Returned v /\
  invocations (snd (loop remaining attempt_)) = seq attempt_ (S n) /\
  exists tr, snd (loop remaining attempt_) = tr ++ [Invoke (attempt_ + n)].
Proof.
  subst loop max_attempts. revert remaining attempt_.
  induction n as [|n IH]; intros remaining attempt_ Hsum Hn Hfail Hok;
    (destruct remaining as [|remaining]; [lia |]).
  - rewrite Nat.add_0_r in Hok. cbn [generate_loop]. rewrite Hok.
    rewrite fst_after, snd_after, app_nil_r, invocations_app.
    repeat split.
    + destruct (0 <? attempt_); reflexivity.
    + rewrite Nat.add_0_r. eexists. reflexivity.
  - pose proof (Hfail attempt_ ltac:(lia)) as Hf.
    destruct (IH remaining (S attempt_)) as [Hout [Hinv Hend]];
      [lia | lia | intros i Hi; apply Hfail; lia
      | now rewrite <- Nat.add_succ_comm in Hok |].
    cbn [generate_loop].
    destruct (super_generate attempt_) as [v' | e] eqn:E;
      simpl in Hf; [discriminate |].
    rewrite Hf.
    replace (attempt_ <? MAX_QUOTA_RETRIES cls - 1) with true
      by (symmetry; apply Nat.ltb_lt; lia).
    rewrite !fst_after. split; [assumption |]. split.
    + rewrite !snd_after, !invocations_app, Hinv.
      destruct (0 <? attempt_); reflexivity.
    + rewrite <- Nat.add_succ_comm. now do 2 apply ends_with_after.
Qed.

(** What the loop can raise. *)
Lemma generate_loop_raises (remaining attempt_ : nat) (x : exn) :
  attempt_ + remaining = max_attempts ->
  fst (loop remaining attempt_) = Raised x ->
  (x = AllAttemptsFailed /\ remaining = 0) \/
  (exists e i,
     x = RateLimitExceeded max_attempts e /\
     agent_is_rate_limit e = true /\
     super_generate i = Fail e /\
     exists tr, snd (loop remaining attempt_) = tr ++ [Invoke i]) \/
  (exists e i,
     x = Original e /\
     agent_is_rate_limit e = false /\
     super_generate i = Fail e /\
     exists tr, snd (loop remaining attempt_) = tr ++ [Invoke i]).
Proof.
  subst loop max_attempts. revert attempt_.
  induction remaining as [|remaining IH]; intros attempt_ Hsum.
  - simpl. intros [= <-]. now left.
  - cbn [generate_loop]. rewrite fst_after.
    destruct (super_generate attempt_) as [v | e] eqn:E; [discriminate |].
    destruct (agent_is_rate_limit e) eqn:C.
    + destruct (attempt_ <? MAX_QUOTA_RETRIES cls - 1) eqn:L.
      * apply Nat.ltb_lt in L. rewrite fst_after. intros H.
        destruct (IH (S attempt_) ltac:(lia) H) as [[_ ->] | [Hx | Hx]];
          [lia | right; left | right; right];
          destruct Hx as [e' [i [? [? [? ?]]]]];
          exists e', i; repeat split; trivial;
          now do 2 apply ends_with_after.
      * intros [= <-]. right; left. exists e, attempt_.
        repeat split; trivial.
        rewrite snd_after, app_nil_r. eexists. reflexivity.
    + intros [= <-]. right; right. exists e, attempt_.
      repeat split; trivial.
      rewrite snd_after, app_nil_r. eexists. reflexivity.
Qed.

(** A failure that is not a rate-limit one ends the loop at once. *)
Lemma generate_loop_fatal (remaining attempt_ : nat) (e : string) :
  super_generate attempt_ = Fail e ->
  agent_is_rate_limit e = false ->
  loop (S remaining) attempt_ =
  (Raised (Original e),
   (if 0 <? attempt_ then [Sleep RequestDelay (REQUEST_DELAY cls)] else [])
   ++ [Invoke attempt_]).
Proof.
  intros E C. subst loop. cbn [generate_loop]. rewrite E, C.
  unfold after. simpl. now rewrite app_nil_r.
Qed.

End AgentFacts.

(** ** The retry loop of [run] *)

Section CrewFacts.

Context {V : Type}.
Variable cls : GeminiConfig.
Variable kickoff : nat -> attempt V.

Let max_retries := MAX_QUOTA_RETRIES cls.
Let loop := run_loop cls kickoff.
Let pre := pre_attempt_delay cls.

(** One iteration of the [while] loop, as the source writes it. *)
Lemma run_loop_body (quota_retry_count consecutive_errors calls : nat) :
  loop quota_retry_count consecutive_errors calls =
  if lt_dec quota_retry_count max_retries then
    match kickoff calls with
    | Ok result =>
        ((Returned (CrewOutput result), 0),
         [pre consecutive_errors; Invoke calls])
    | Fail e =>
        if crew_is_rate_limit e then
          if lt_dec quota_retry_count (max_retries - 1) then
            after [pre consecutive_errors; Invoke calls;
                   Sleep RateLimitWait (rate_limit_wait quota_retry_count)]
                  (loop (S quota_retry_count) (S consecutive_errors)
                        (S calls))
          else
            ((Returned (ErrorResponse "rate_limit_exceeded"),
              consecutive_errors),
             [pre consecutive_errors; Invoke calls])
        else
          if lt_dec consecutive_errors 3 then
            after [pre consecutive_errors; Invoke calls;
                   Sleep ErrorBackoff (error_backoff (S consecutive_errors))]
                  (loop quota_retry_count (S consecutive_errors) (S calls))
          else
            ((Raised (Original e), consecutive_errors),
             [pre consecutive_errors; Invoke calls])
    end
  else
    ((Returned (ErrorResponse "max_retries_exceeded"), consecutive_errors),
     []).
Proof.
  unfold loop at 1. subst pre max_retries. simp run_loop.
  destruct (lt_dec quota_retry_count (MAX_QUOTA_RETRIES cls)); simpl;
    [| reflexivity].
  destruct (kickoff calls) as [result | e]; simpl; [reflexivity |].
  destruct (crew_is_rate_limit e); simpl.
  - destruct (lt_dec quota_retry_count (MAX_QUOTA_RETRIES cls - 1)); reflexivity.
  - destruct (lt_dec consecutive_errors 3); reflexivity.
Qed.


(** Induction along the iterations of the loop. *)
Lemma run_loop_induction (P : nat -> nat -> nat -> Prop) :
  (forall quota_retry_count consecutive_errors calls,
     (forall e, kickoff calls = Fail e -> crew_is_rate_limit e = true ->
                quota_retry_count < max_retries - 1 ->
                P (S quota_retry_count) (S consecutive_errors) (S calls)) ->
     (forall e, kickoff calls = Fail e -> crew_is_rate_limit e = false ->
                quota_retry_count < max_retries -> consecutive_errors < 3 ->
                P quota_retry_count (S consecutive_errors) (S calls)) ->
     P quota_retry_count consecutive_errors calls) ->
  forall quota_retry_count consecutive_errors calls,
    P quota_retry_count consecutive_errors calls.
Proof.
  intros Hstep q ce.
  remember ((max_retries - q) + (3 - ce)) as m eqn:Hm.
  revert q ce Hm.
  induction m as [m IH] using lt_wf_ind; intros q ce Hm calls.
  apply Hstep.
  - intros e _ _ Hq. apply (IH ((max_retries - S q) + (3 - S ce))); lia.
  - intros e _ _ Hq Hce. apply (IH ((max_retries - q) + (3 - S ce))); lia.
Qed.

Lemma pre_is_sleep (consecutive_errors : nat) :
  exists site d,
    pre consecutive_errors = Sleep site d /\ is_pre_attempt site = true.
Proof.
  subst pre. unfold pre_attempt_delay.
  destruct (py_gt _ _); eexists; eexists; split; reflexivity.
Qed.

(** The only exception that leaves the loop is the one of the last call of
    [crew.kickoff()], and it is not a rate-limit one. *)
Lemma run_loop_raises (quota_retry_count consecutive_errors calls : nat)
  (x : exn) (after_ : nat) :
  fst (loop quota_retry_count consecutive_errors calls) = (Raised x, after_) ->
  exists e i,
    x = Original e /\ crew_is_rate_limit e = false /\
    kickoff i = Fail e /\ 3 <= after_ /\
    exists tr,
      snd (loop quota_retry_count consecutive_errors calls)
      = tr ++ [Invoke i].
Proof.
  revert quota_retry_count consecutive_errors calls.
  apply (run_loop_induction (fun q ce calls =>
    fst (loop q ce calls) = (Raised x, after_) ->
    exists e i, x = Original e /\ crew_is_rate_limit e = false /\
      kickoff i = Fail e /\ 3 <= after_ /\
      exists tr, snd (loop q ce calls) = tr ++ [Invoke i])).
  intros q ce calls IHrate IHother. rewrite run_loop_body.
  destruct (lt_dec q max_retries) as [Hq | Hq]; [| discriminate].
  destruct (kickoff calls) as [result | e] eqn:E; [discriminate |].
  destruct (crew_is_rate_limit e) eqn:C.
  - destruct (lt_dec q (max_retries - 1)) as [Hq' | Hq']; [| discriminate].
    rewrite fst_after. intros H.
    destruct (IHrate e eq_refl C Hq' H) as [e' [i [? [? [? [? ?]]]]]].
    exists e', i. repeat split; trivial. now apply ends_with_after.
  - destruct (lt_dec ce 3) as [Hce | Hce].
    + rewrite fst_after. intros H.
      destruct (IHother e eq_refl C Hq Hce H) as [e' [i [? [? [? [? ?]]]]]].
      exists e', i. repeat split; trivial. now apply ends_with_after.
    + simpl. intros [= <- <-]. exists e, calls.
      repeat split; trivial; [lia |].
      exists [pre ce]. reflexivity.
Qed.

(** A returned result of [crew.kickoff()] comes with a counter reset to 0,
    and the successful call is the last event. *)
Lemma run_loop_success (quota_retry_count consecutive_errors calls : nat)
  (v : V) (after_ : nat) :
  fst (loop quota_retry_count consecutive_errors calls)
    = (Returned (CrewOutput v), after_) ->
  after_ = 0 /\
  exists i,
    kickoff i = Ok v /\
    exists tr,
      snd (loop quota_retry_count consecutive_errors calls)
      = tr ++ [Invoke i].
Proof.
  revert quota_retry_count consecutive_errors calls.
  apply (run_loop_induction (fun q ce calls =>
    fst (loop q ce calls) = (Returned (CrewOutput v), after_) ->
    after_ = 0 /\
    exists i, kickoff i = Ok v /\
      exists tr, snd (loop q ce calls) = tr ++ [Invoke i])).
  intros q ce calls IHrate IHother. rewrite run_loop_body.
  destruct (lt_dec q max_retries) as [Hq | Hq]; [| discriminate].
  destruct (kickoff calls) as [result | e] eqn:E.
  - simpl. intros [= <- <-]. split; [reflexivity |].
    exists calls. split; [assumption |]. exists [pre ce]. reflexivity.
  - destruct (crew_is_rate_limit e) eqn:C.
    + destruct (lt_dec q (max_retries - 1)) as [Hq' | Hq']; [| discriminate].
      rewrite fst_after. intros H.
      destruct (IHrate e eq_refl C Hq' H) as [? [i [? ?]]].
      split; [assumption |]. exists i. split; [assumption |].
      now apply ends_with_after.
    + destruct (lt_dec ce 3) as [Hce | Hce]; [| discriminate].
      rewrite fst_after. intros H.
      destruct (IHother e eq_refl C Hq Hce H) as [? [i [? ?]]].
      split; [assumption |]. exists i. split; [assumption |].
      now apply ends_with_after.
Qed.

(** The delay of the head of the [try] block precedes every call of
    [crew.kickoff()], the retries included. *)
Lemma run_loop_calls_delayed (quota_retry_count consecutive_errors calls : nat) :
  calls_delayed false (snd (loop quota_retry_count consecutive_errors calls))
  = true.
Proof.
  revert quota_retry_count consecutive_errors calls.
  apply run_loop_induction.
  intros q ce calls IHrate IHother. rewrite run_loop_body.
  destruct (pre_is_sleep ce) as [site [d [Hpre Hsite]]].
  destruct (lt_dec q max_retries) as [Hq | Hq]; [| reflexivity].
  destruct (kickoff calls) as [result | e] eqn:E.
  - simpl. rewrite Hpre. simpl. now rewrite Hsite.
  - destruct (crew_is_rate_limit e) eqn:C.
    + destruct (lt_dec q (max_retries - 1)) as [Hq' | Hq'].
      * rewrite snd_after, Hpre. simpl. rewrite Hsite. simpl.
        now apply (IHrate e).
      * simpl. rewrite Hpre. simpl. now rewrite Hsite.
    + destruct (lt_dec ce 3) as [Hce | Hce].
      * rewrite snd_after, Hpre. simpl. rewrite Hsite. simpl.
        now apply (IHother e).
      * simpl. rewrite Hpre. simpl. now rewrite Hsite.
Qed.


Lemma invocations_pre (consecutive_errors : nat) (tr : trace) :
  invocations (pre consecutive_errors :: tr) = invocations tr.
Proof.
  destruct (pre_is_sleep consecutive_errors) as [site [d [-> _]]].
  reflexivity.
Qed.

Lemma waits_at_pre (consecutive_errors : nat) (tr : trace) :
  waits_at RateLimitWait (pre consecutive_errors :: tr)
  = waits_at RateLimitWait tr.
Proof.
  destruct (pre_is_sleep consecutive_errors) as [site [d [-> Hsite]]].
  destruct site; try discriminate; reflexivity.
Qed.

(** A rate-limit failure below the last permitted attempt: wait and go
    round the loop again. *)
Lemma run_loop_rate_limit_step
  (quota_retry_count consecutive_errors calls : nat) (e : string) :
  kickoff calls = Fail e ->
  crew_is_rate_limit e = true ->
  quota_retry_count < max_retries - 1 ->
  loop quota_retry_count consecutive_errors calls =
  after [pre consecutive_errors; Invoke calls;
         Sleep RateLimitWait (rate_limit_wait quota_retry_count)]
        (loop (S quota_retry_count) (S consecutive_errors) (S calls)).
Proof.
  intros E C Hq. rewrite run_loop_body, E, C.
  destruct (lt_dec quota_retry_count max_retries); [| lia].
  destruct (lt_dec quota_retry_count (max_retries - 1)); [reflexivity | lia].
Qed.

(** A failure that is not a rate-limit one: re-raised once three
    consecutive errors are on record, retried after a back-off before. *)
Lemma run_loop_other_error
  (quota_retry_count consecutive_errors calls : nat) (e : string) :
  kickoff calls = Fail e ->
  crew_is_rate_limit e = false ->
  quota_retry_count < max_retries ->
  (3 <= consecutive_errors ->
   loop quota_retry_count consecutive_errors calls =
   ((Raised (Original e), consecutive_errors),
    [pre consecutive_errors; Invoke calls])) /\
  (consecutive_errors < 3 ->
   loop quota_retry_count consecutive_errors calls =
   after [pre consecutive_errors; Invoke calls;
          Sleep ErrorBackoff (error_backoff (S consecutive_errors))]
         (loop quota_retry_count (S consecutive_errors) (S calls))).
Proof.
  intros E C Hq. rewrite run_loop_body, E, C.
  destruct (lt_dec quota_retry_count max_retries); [| lia].
  destruct (lt_dec consecutive_errors 3); split; intros; solve [reflexivity | lia].
Qed.

(** Rate-limit failures on every call use up the loop. *)
Lemma run_loop_exhausts (n quota_retry_count consecutive_errors calls : nat) :
  quota_retry_count + S n = max_retries ->
  (forall i, calls <= i ->
     fails_with crew_is_rate_limit (kickoff i) = true) ->
  fst (loop quota_retry_count consecutive_errors calls) =
    (Returned (ErrorResponse "rate_limit_exceeded"), consecutive_errors + n)
  /\ invocations (snd (loop quota_retry_count consecutive_errors calls))
     = seq calls (S n)
  /\ waits_at RateLimitWait
       (snd (loop quota_retry_count consecutive_errors calls))
     = map rate_limit_wait (seq quota_retry_count n).
Proof.
  revert quota_retry_count consecutive_errors calls.
  induction n as [|n IH]; intros q ce calls Hsum Hfail;
    pose proof (Hfail calls (le_n _)) as Hf;
    destruct (kickoff calls) as [v | e] eqn:E; simpl in Hf;
    try discriminate.
  - rewrite run_loop_body, E, Hf.
    destruct (lt_dec q max_retries); [| lia].
    destruct (lt_dec q (max_retries - 1)); [lia |].
    cbn [fst snd]. rewrite Nat.add_0_r, invocations_pre, waits_at_pre.
    repeat split.
  - rewrite (run_loop_rate_limit_step q ce calls e E Hf) by lia.
    destruct (IH (S q) (S ce) (S calls)) as [Hout [Hinv Hw]];
      [lia | intros i Hi; apply Hfail; lia |].
    rewrite fst_after, snd_after, Hout.
    cbn [app]. rewrite invocations_pre, waits_at_pre.
    cbn [invocations waits_at sleep_site_eqb]. rewrite Hinv, Hw.
    repeat split. f_equal. lia.
Qed.

(** Rate-limit failures followed by a success within the budget. *)
Lemma run_loop_succeeds
  (n quota_retry_count consecutive_errors calls : nat) (v : V) :
  quota_retry_count + n < max_retries ->
  (forall i, calls <= i < calls + n ->
     fails_with crew_is_rate_limit (kickoff i) = true) ->
  kickoff (calls + n) = Ok v ->
  fst (loop quota_retry_count consecutive_errors calls)
    = (Returned (CrewOutput v), 0)
  /\ invocations (snd (loop quota_retry_count consecutive_errors calls))
     = seq calls (S n)
  /\ waits_at RateLimitWait
       (snd (loop quota_retry_count consecutive_errors calls))
     = map rate_limit_wait (seq quota_retry_count n)
  /\ exists tr,
       snd (loop quota_retry_count consecutive_errors calls)
       = tr ++ [Invoke (calls + n)].
Proof.
  revert quota_retry_count consecutive_errors calls.
  induction n as [|n IH]; intros q ce calls Hq Hfail Hok.
  - rewrite Nat.add_0_r in *. rewrite run_loop_body, Hok.
    destruct (lt_dec q max_retries); [| lia].
    cbn [fst snd]. rewrite invocations_pre, waits_at_pre.
    repeat split. exists [pre ce]. reflexivity.
  - pose proof (Hfail calls ltac:(lia)) as Hf.
    destruct (kickoff calls) as [v' | e] eqn:E; simpl in Hf;
      [discriminate |].
    rewrite (run_loop_rate_limit_step q ce calls e E Hf) by lia.
    destruct (IH (S q) (S ce) (S calls)) as [Hout [Hinv [Hw Hend]]];
      [lia | intros i Hi; apply Hfail; lia
      | now rewrite <- Nat.add_succ_comm in Hok |].
    rewrite fst_after, snd_after, Hout.
    cbn [app]. rewrite invocations_pre, waits_at_pre.
    cbn [invocations waits_at sleep_site_eqb]. rewrite Hinv, Hw.
    repeat split.
    rewrite <- Nat.add_succ_comm.
    destruct Hend as [tr ->].
    exists (pre ce :: Invoke calls
              :: Sleep RateLimitWait (rate_limit_wait q) :: tr).
    reflexivity.
Qed.

End CrewFacts.

(** * The claims *)

(** ** C1 *)

(** C1, as amended.  With a budget of [N = MAX_QUOTA_RETRIES >= 1] and a
    call that fails with a rate-limit error every time, the call is invoked
    exactly [N] times (invocations [0 .. N-1], never an [N+1]st).
    [_generate] then raises a new exception that reports [N] and has the last
    error as its context; [run] instead returns the canned
    "rate_limit_exceeded" response, with [consecutive_errors] raised by
    [N - 1]. *)
Theorem always_rate_limited_exhausts (V : Type) (cls : GeminiConfig)
  (call : nat -> attempt V) :
  1 <= MAX_QUOTA_RETRIES cls ->
  ((forall i, fails_with agent_is_rate_limit (call i) = true) ->
   exists e tr,
     call (MAX_QUOTA_RETRIES cls - 1) = Fail e /\
     _generate cls call
       = (Raised (RateLimitExceeded (MAX_QUOTA_RETRIES cls) e), tr) /\
     invocations tr = seq 0 (MAX_QUOTA_RETRIES cls))
  /\
  ((forall i, fails_with crew_is_rate_limit (call i) = true) ->
   forall consecutive_errors,
   exists tr,
     run cls call consecutive_errors
       = ((Returned (ErrorResponse "rate_limit_exceeded"),
           consecutive_errors + (MAX_QUOTA_RETRIES cls - 1)), tr) /\
     invocations tr = seq 0 (MAX_QUOTA_RETRIES cls)).
Proof.
  intros Hmax.
  destruct (MAX_QUOTA_RETRIES cls) as [|n] eqn:Hn; [lia |].
  split; intros Hfail.
  - destruct (generate_loop_exhausts cls call n 0) as [e [He [Hout Hinv]]];
      [now rewrite Hn | intros i _; apply Hfail |].
    rewrite Hn in He.
    exists e, (snd (_generate cls call)). unfold _generate.
    rewrite Hn. split; [assumption |]. split; [| assumption].
    rewrite <- Hn at 2. rewrite <- Hout. now destruct (generate_loop _ _ _ _).
  - intros ce.
    destruct (run_loop_exhausts cls call n 0 ce 0) as [Hout [Hinv _]];
      [now rewrite Hn | intros i _; apply Hfail |].
    exists (snd (run cls call ce)). unfold run.
    split; [| assumption].
    replace (S n - 1) with n by lia. rewrite <- Hout.
    now destruct (run_loop _ _ _ _ _).
Qed.

Lemma always_rate_limited_exhausts_witness :
  (exists e tr,
     always_fails (V:=string) "429 Too Many Requests" (10 - 1) = Fail e /\
     _generate default_config
               (always_fails (V:=string) "429 Too Many Requests")
       = (Raised (RateLimitExceeded 10 e), tr) /\
     invocations tr = seq 0 10)
  /\
  (exists tr,
     run default_config (always_fails (V:=string) "429 Too Many Requests") 0
       = ((Returned (ErrorResponse "rate_limit_exceeded"), 0 + (10 - 1)), tr)
     /\ invocations tr = seq 0 10).
Proof.
  pose proof (always_rate_limited_exhausts string default_config
                (always_fails "429 Too Many Requests")
                ltac:(simpl; lia)) as [Hagent Hcrew].
  split.
  - apply Hagent. intros i. reflexivity.
  - apply Hcrew. intros i. reflexivity.
Defined.

(** C1 as stated fails on [run]: after ten rate-limit failures it returns
    the error response, it raises nothing, and so no exception carries the
    number of attempts or the last error. *)
Lemma run_exhausted_returns_response :
  let r := run default_config
             (always_fails (V:=string) "429 Too Many Requests") 0 in
  fst r = (Returned (ErrorResponse "rate_limit_exceeded"), 9) /\
  invocations (snd r) = seq 0 10 /\
  ~ (exists x last_error,
       fst (fst r) = Raised x /\ exhausted_error x 10 last_error).
Proof.
  split; [reflexivity |]. split; [reflexivity |].
  intros [x [last_error [H _]]]. vm_compute in H. discriminate.
Qed.

(** ** C2 *)

(** C2, as amended.  [_generate] re-raises a failure that is not a
    rate-limit one at once: one invocation, no sleep.  [run] does so (after
    the delay at the head of the [try] block) only once
    [consecutive_errors] has reached 3; below that it counts the error,
    sleeps [10 * 2 ** consecutive_errors] seconds and calls again. *)
Theorem non_rate_limit_error_propagation (V : Type) (cls : GeminiConfig)
  (call : nat -> attempt V) (e : string) :
  1 <= MAX_QUOTA_RETRIES cls ->
  call 0 = Fail e ->
  (agent_is_rate_limit e = false ->
   _generate cls call = (Raised (Original e), [Invoke 0]))
  /\
  (crew_is_rate_limit e = false ->
   forall consecutive_errors,
     (3 <= consecutive_errors ->
      run cls call consecutive_errors =
      ((Raised (Original e), consecutive_errors),
       [pre_attempt_delay cls consecutive_errors; Invoke 0])) /\
     (consecutive_errors < 3 ->
      run cls call consecutive_errors =
      after [pre_attempt_delay cls consecutive_errors; Invoke 0;
             Sleep ErrorBackoff (error_backoff (S consecutive_errors))]
            (run_loop cls call 0 (S consecutive_errors) 1))).
Proof.
  intros Hmax E. split; intros C.
  - unfold _generate.
    destruct (MAX_QUOTA_RETRIES cls) as [|n] eqn:Hn; [lia |].
    now rewrite (generate_loop_fatal cls call n 0 e E C).
  - intros ce. unfold run.
    now apply run_loop_other_error.
Qed.

Lemma non_rate_limit_error_propagation_witness :
  _generate default_config (always_fails (V:=string) "invalid api key")
    = (Raised (Original "invalid api key"), [Invoke 0])
  /\
  run default_config (always_fails (V:=string) "invalid api key") 3
    = ((Raised (Original "invalid api key"), 3),
       [pre_attempt_delay default_config 3; Invoke 0])
  /\
  run default_config (always_fails (V:=string) "invalid api key") 0
    = after [pre_attempt_delay default_config 0; Invoke 0;
             Sleep ErrorBackoff (error_backoff 1)]
            (run_loop default_config (always_fails "invalid api key") 0 1 1).
Proof.
  pose proof (non_rate_limit_error_propagation string default_config
                (always_fails "invalid api key") "invalid api key"
                ltac:(simpl; lia) eq_refl) as [Hagent Hcrew].
  split; [apply Hagent; reflexivity |].
  split.
  - apply (proj1 (Hcrew eq_refl 3)). lia.
  - apply (proj2 (Hcrew eq_refl 0)). lia.
Defined.

(** C2 as stated fails on [run]: on a fresh instance a call that always
    raises "invalid api key" is invoked four times, with back-off sleeps of
    20, 40 and 80 seconds, before the exception is re-raised. *)
Lemma run_retries_non_rate_limit_error :
  let r := run default_config
             (always_fails (V:=string) "invalid api key") 0 in
  crew_is_rate_limit "invalid api key" = false /\
  r = ((Raised (Original "invalid api key"), 3),
       [Sleep RequestDelay 3; Invoke 0; Sleep ErrorBackoff 20;
        Sleep AdaptiveDelay 6; Invoke 1; Sleep ErrorBackoff 40;
        Sleep AdaptiveDelay 12; Invoke 2; Sleep ErrorBackoff 80;
        Sleep AdaptiveDelay 24; Invoke 3]%Q) /\
  invocations (snd r) <> [0] /\
  waits (snd r) <> [].
Proof.
  split; [reflexivity |]. split; [reflexivity |].
  split; vm_compute; discriminate.
Qed.

(** ** C3 *)

(** C3.  For [1 <= k <= MAX_QUOTA_RETRIES], a call that fails with
    rate-limit errors on its first [k - 1] invocations and succeeds on the
    [k]th is invoked exactly [k] times, its value is returned, and the
    successful invocation is the last event: no sleep follows it.  This
    holds for [_generate] and for [run]. *)
Theorem success_on_attempt_k (V : Type) (cls : GeminiConfig)
  (call : nat -> attempt V) (k : nat) (v : V) :
  1 <= k <= MAX_QUOTA_RETRIES cls ->
  call (k - 1) = Ok v ->
  ((forall i, i < k - 1 -> fails_with agent_is_rate_limit (call i) = true) ->
   exists tr,
     _generate cls call = (Returned v, tr ++ [Invoke (k - 1)]) /\
     invocations (tr ++ [Invoke (k - 1)]) = seq 0 k)
  /\
  ((forall i, i < k - 1 -> fails_with crew_is_rate_limit (call i) = true) ->
   forall consecutive_errors,
   exists tr,
     run cls call consecutive_errors
       = ((Returned (CrewOutput v), 0), tr ++ [Invoke (k - 1)]) /\
     invocations (tr ++ [Invoke (k - 1)]) = seq 0 k).
Proof.
  intros Hk Hok.
  destruct k as [|n]; [lia |]. replace (S n - 1) with n in * by lia.
  split; intros Hfail.
  - destruct (generate_loop_succeeds cls call n (MAX_QUOTA_RETRIES cls) 0 v)
      as [Hout [Hinv [tr Hend]]];
      [reflexivity | lia | intros i Hi; apply Hfail; lia | assumption |].
    simpl in Hend. exists tr. unfold _generate.
    rewrite <- Hend. split; [| assumption].
    rewrite <- Hout. now destruct (generate_loop _ _ _ _).
  - intros ce.
    destruct (run_loop_succeeds cls call n 0 ce 0 v)
      as [Hout [Hinv [_ [tr Hend]]]];
      [lia | intros i Hi; apply Hfail; lia | assumption |].
    simpl in Hend. exists tr. unfold run.
    rewrite <- Hend. split; [| assumption].
    rewrite <- Hout. now destruct (run_loop _ _ _ _ _).
Qed.

Lemma success_on_attempt_k_witness :
  (exists tr,
     _generate default_config (fails_then_succeeds 2 "quota exceeded" "game")
       = (Returned "game", tr ++ [Invoke (3 - 1)]) /\
     invocations (tr ++ [Invoke (3 - 1)]) = seq 0 3)
  /\
  (exists tr,
     run default_config (fails_then_succeeds 2 "quota exceeded" "game") 1
       = ((Returned (CrewOutput "game"), 0), tr ++ [Invoke (3 - 1)]) /\
     invocations (tr ++ [Invoke (3 - 1)]) = seq 0 3).
Proof.
  pose proof (success_on_attempt_k string default_config
                (fails_then_succeeds 2 "quota exceeded" "game") 3 "game"
                ltac:(simpl; lia) eq_refl) as [Hagent Hcrew].
  split.
  - apply Hagent. intros [|[|i]] Hi; [reflexivity | reflexivity | simpl in Hi; lia].
  - apply Hcrew. intros [|[|i]] Hi; [reflexivity | reflexivity | simpl in Hi; lia].
Defined.

(** ** Outcomes of the two loops, for every wrapped call *)

Lemma absorbed_until_single {V : Type} (call : nat -> attempt V)
  (absorbed : string -> bool) (i : nat) (evs : trace) :
  invocations evs = [] ->
  absorbed_until call absorbed i i (evs ++ [Invoke i]).
Proof.
  intros Hevs. split; [now exists evs |]. split.
  - rewrite invocations_app, Hevs.
    replace (S i - i) with 1 by lia. reflexivity.
  - intros j Hj. lia.
Qed.

Lemma absorbed_until_cons {V : Type} (call : nat -> attempt V)
  (absorbed : string -> bool) (first last : nat) (evs tr : trace) :
  invocations evs = [first] ->
  fails_with absorbed (call first) = true ->
  S first <= last ->
  absorbed_until call absorbed (S first) last tr ->
  absorbed_until call absorbed first last (evs ++ tr).
Proof.
  intros Hevs Hfail Hle [[tr' ->] [Hinv Hall]]. split; [| split].
  - exists (evs ++ tr'). now rewrite app_assoc.
  - rewrite invocations_app, Hevs, Hinv.
    replace (S last - first) with (S (S last - S first)) by lia.
    reflexivity.
  - intros j Hj. destruct (Nat.eq_dec j first) as [-> | Hne];
      [assumption | apply Hall; lia].
Qed.

Lemma rate_limit_failures_single {V : Type} (call : nat -> attempt V)
  (i : nat) :
  rate_limit_failures call i i =
  if fails_with crew_is_rate_limit (call i) then 1 else 0.
Proof.
  unfold rate_limit_failures. replace (S i - i) with 1 by lia.
  cbn [seq filter]. now destruct (fails_with crew_is_rate_limit (call i)).
Qed.

Lemma rate_limit_failures_cons {V : Type} (call : nat -> attempt V)
  (first last : nat) :
  S first <= last ->
  rate_limit_failures call first last =
  (if fails_with crew_is_rate_limit (call first) then 1 else 0)
  + rate_limit_failures call (S first) last.
Proof.
  intros Hle. unfold rate_limit_failures.
  replace (S last - first) with (S (S last - S first)) by lia.
  cbn [seq filter]. now destruct (fails_with crew_is_rate_limit (call first)).
Qed.

Lemma generate_loop_outcome (V : Type) (cls : GeminiConfig)
  (call : nat -> attempt V) (remaining attempt_ : nat) (x : exn) :
  attempt_ + remaining = MAX_QUOTA_RETRIES cls ->
  fst (generate_loop cls call remaining attempt_) = Raised x ->
  (x = AllAttemptsFailed /\ remaining = 0) \/
  (exists e i,
     attempt_ <= i /\ call i = Fail e /\
     absorbed_until call agent_is_rate_limit attempt_ i
       (snd (generate_loop cls call remaining attempt_)) /\
     ((x = RateLimitExceeded (MAX_QUOTA_RETRIES cls) e /\
       agent_is_rate_limit e = true /\ S i = MAX_QUOTA_RETRIES cls) \/
      (x = Original e /\ agent_is_rate_limit e = false /\
       S i <= MAX_QUOTA_RETRIES cls))).
Proof.
  revert attempt_.
  induction remaining as [|remaining IH]; intros attempt_ Hsum.
  - simpl. intros [= <-]. now left.
  - cbn [generate_loop]. rewrite fst_after, snd_after.
    assert (Hdelay :
      invocations
        ((if 0 <? attempt_
          then [Sleep RequestDelay (REQUEST_DELAY cls)] else [])
         ++ [Invoke attempt_]) = [attempt_])
      by (destruct (0 <? attempt_); reflexivity).
    assert (Hhead :
      invocations
        (if 0 <? attempt_
         then [Sleep RequestDelay (REQUEST_DELAY cls)] else []) = [])
      by (destruct (0 <? attempt_); reflexivity).
    destruct (call attempt_) as [v | e] eqn:E; [discriminate |].
    destruct (agent_is_rate_limit e) eqn:C.
    + destruct (attempt_ <? MAX_QUOTA_RETRIES cls - 1) eqn:L.
      * apply Nat.ltb_lt in L. rewrite fst_after, snd_after. intros H.
        destruct (IH (S attempt_) ltac:(lia) H)
          as [[_ ->] | [e' [i [Hi [Ei [Habs Hx]]]]]]; [lia |].
        right. exists e', i. split; [lia |]. split; [assumption |].
        split; [| assumption].
        rewrite app_assoc.
        apply absorbed_until_cons; trivial.
        -- rewrite invocations_app, Hdelay. reflexivity.
        -- now rewrite E.
      * apply Nat.ltb_ge in L. intros [= <-]. right. exists e, attempt_.
        split; [lia |]. split; [assumption |]. split.
        -- rewrite app_nil_r. now apply absorbed_until_single.
        -- left. repeat split; trivial. lia.
    + intros [= <-]. right. exists e, attempt_.
      split; [lia |]. split; [assumption |]. split.
      * rewrite app_nil_r. now apply absorbed_until_single.
      * right. repeat split; trivial. lia.
Qed.

Lemma run_loop_outcome (V : Type) (cls : GeminiConfig)
  (kickoff : nat -> attempt V) :
  forall quota_retry_count consecutive_errors calls,
    (fst (fst (run_loop cls kickoff quota_retry_count consecutive_errors
                 calls))
     = Returned (ErrorResponse "max_retries_exceeded") /\
     MAX_QUOTA_RETRIES cls <= quota_retry_count /\
     snd (run_loop cls kickoff quota_retry_count consecutive_errors calls)
     = []) \/
    (exists i,
       calls <= i /\ quota_retry_count < MAX_QUOTA_RETRIES cls /\
       absorbed_until kickoff (fun _ => true) calls i
         (snd (run_loop cls kickoff quota_retry_count consecutive_errors
                 calls)) /\
       ((exists v,
           kickoff i = Ok v /\
           fst (fst (run_loop cls kickoff quota_retry_count
                       consecutive_errors calls))
           = Returned (CrewOutput v)) \/
        (exists e,
           kickoff i = Fail e /\ crew_is_rate_limit e = true /\
           fst (fst (run_loop cls kickoff quota_retry_count
                       consecutive_errors calls))
           = Returned (ErrorResponse "rate_limit_exceeded") /\
           rate_limit_failures kickoff calls i
           = MAX_QUOTA_RETRIES cls - quota_retry_count) \/
        (exists e,
           kickoff i = Fail e /\ crew_is_rate_limit e = false /\
           fst (fst (run_loop cls kickoff quota_retry_count
                       consecutive_errors calls))
           = Raised (Original e) /\
           3 <= snd (fst (run_loop cls kickoff quota_retry_count
                            consecutive_errors calls))))).
Proof.
  match goal with
  | |- forall q ce calls, @?P q ce calls =>
      apply (run_loop_induction cls kickoff P)
  end.
  intros q ce calls IHrate IHother. cbv beta in IHrate, IHother |- *.
  rewrite run_loop_body.
  assert (Hhead : invocations [pre_attempt_delay cls ce] = [])
    by apply (invocations_pre cls ce []).
  destruct (lt_dec q (MAX_QUOTA_RETRIES cls)) as [Hq | Hq];
    [| left; repeat split; lia].
  right.
  destruct (kickoff calls) as [v | e] eqn:E.
  - exists calls. split; [lia |]. split; [assumption |]. split.
    + now apply (absorbed_until_single kickoff _ calls
                   [pre_attempt_delay cls ce]).
    + left. now exists v.
  - destruct (crew_is_rate_limit e) eqn:C.
    + destruct (lt_dec q (MAX_QUOTA_RETRIES cls - 1)) as [Hq' | Hq'].
      * rewrite fst_after, snd_after.
        destruct (IHrate e eq_refl C Hq')
          as [[_ [Hge _]] | [i [Hi [_ [Habs Hout]]]]]; [lia |].
        exists i. split; [lia |]. split; [assumption |]. split.
        -- apply absorbed_until_cons; trivial.
           ++ rewrite (invocations_pre cls ce). reflexivity.
           ++ now rewrite E.
        -- destruct Hout as [Hout | [[e' [Ei [Ci [Hout Hcount]]]] | Hout]];
             [now left | | now right; right].
           right; left. exists e'. repeat split; trivial.
           rewrite rate_limit_failures_cons by lia.
           rewrite E. cbn [fails_with]. rewrite C, Hcount. lia.
      * exists calls. split; [lia |]. split; [assumption |]. split.
        -- now apply (absorbed_until_single kickoff _ calls
                        [pre_attempt_delay cls ce]).
        -- right; left. exists e. repeat split; trivial.
           rewrite rate_limit_failures_single, E. cbn [fails_with].
           rewrite C. lia.
    + destruct (lt_dec ce 3) as [Hce | Hce].
      * rewrite fst_after, snd_after.
        destruct (IHother e eq_refl C Hq Hce)
          as [[_ [Hge _]] | [i [Hi [_ [Habs Hout]]]]]; [lia |].
        exists i. split; [lia |]. split; [assumption |]. split.
        -- apply absorbed_until_cons; trivial.
           ++ rewrite (invocations_pre cls ce). reflexivity.
           ++ now rewrite E.
        -- destruct Hout as [Hout | [[e' [Ei [Ci [Hout Hcount]]]] | Hout]];
             [now left | | now right; right].
           right; left. exists e'. repeat split; trivial.
           rewrite rate_limit_failures_cons by lia.
           rewrite E. cbn [fails_with]. rewrite C, Hcount. lia.
      * exists calls. split; [lia |]. split; [assumption |]. split.
        -- now apply (absorbed_until_single kickoff _ calls
                        [pre_attempt_delay cls ce]).
        -- right; right. exists e. repeat split; trivial. cbn [fst snd]. lia.
Qed.

(** ** C4 *)

(** C4.  Whatever the wrapped call does, [_generate] and [run] surface an
    error only in the following ways, and in each of them the error comes
    from the last invocation of the trace.

    An exception that leaves [_generate] is either the exhaustion exception
    or the original exception of the last invocation.  The exhaustion
    exception is raised only when the budget is used: the invocations are
    exactly [0, ..., MAX_QUOTA_RETRIES - 1], every one of them raised a
    rate-limit error, and the exception holds the error of the last one
    (the exception after the loop needs an empty budget and no invocation
    at all).  The original exception is not a rate-limit one, and every
    invocation before it raised a rate-limit error that was absorbed.

    [run] raises only the original exception of the last invocation, which
    is not a rate-limit one, and surfaces exhaustion as an error response:
    [rate_limit_exceeded] is returned only when the last invocation raised
    a rate-limit error and exactly [MAX_QUOTA_RETRIES] invocations did
    ([max_retries_exceeded] needs an empty budget and no invocation at
    all).  Every invocation before the last one raised an exception, none
    of which is surfaced; the only other outcome is the result of the last
    invocation. *)
Theorem only_exhaustion_or_original_error (V : Type) (cls : GeminiConfig)
  (call : nat -> attempt V) :
  (forall x tr,
     _generate cls call = (Raised x, tr) ->
     (x = AllAttemptsFailed /\ MAX_QUOTA_RETRIES cls = 0 /\ tr = []) \/
     (exists e i,
        call i = Fail e /\
        absorbed_until call agent_is_rate_limit 0 i tr /\
        ((x = RateLimitExceeded (MAX_QUOTA_RETRIES cls) e /\
          agent_is_rate_limit e = true /\
          S i = MAX_QUOTA_RETRIES cls) \/
         (x = Original e /\
          agent_is_rate_limit e = false /\
          S i <= MAX_QUOTA_RETRIES cls))))
  /\
  (forall consecutive_errors out after_ tr,
     run cls call consecutive_errors = ((out, after_), tr) ->
     (out = Returned (ErrorResponse "max_retries_exceeded") /\
      MAX_QUOTA_RETRIES cls = 0 /\ tr = []) \/
     (exists i,
        absorbed_until call (fun _ => true) 0 i tr /\
        ((exists v,
            call i = Ok v /\ out = Returned (CrewOutput v)) \/
         (exists e,
            call i = Fail e /\ crew_is_rate_limit e = true /\
            out = Returned (ErrorResponse "rate_limit_exceeded") /\
            rate_limit_failures call 0 i = MAX_QUOTA_RETRIES cls) \/
         (exists e,
            call i = Fail e /\ crew_is_rate_limit e = false /\
            out = Raised (Original e) /\ 3 <= after_)))).
Proof.
  split.
  - intros x tr H.
    pose proof (generate_loop_outcome V cls call (MAX_QUOTA_RETRIES cls) 0 x
                  eq_refl) as Hr.
    fold (_generate cls call) in Hr. rewrite H in Hr.
    destruct (Hr eq_refl) as [[-> Hmax] | [e [i [_ [E [Habs Hx]]]]]].
    + left. split; [reflexivity |]. split; [assumption |].
      unfold _generate in H. rewrite Hmax in H. simpl in H. congruence.
    + right. now exists e, i.
  - intros ce out after_ tr H.
    pose proof (run_loop_outcome V cls call 0 ce 0) as Hr.
    fold (run cls call ce) in Hr. rewrite H in Hr. cbn [fst snd] in Hr.
    destruct Hr as [[Hout [Hmax Htr]] | [i [_ [_ [Habs Hout]]]]].
    + left. split; [assumption |]. split; [lia | assumption].
    + right. exists i. split; [assumption |].
      now rewrite Nat.sub_0_r in Hout.
Qed.

Lemma only_exhaustion_or_original_error_witness :
  ((RateLimitExceeded 3 "429 too many requests" = AllAttemptsFailed /\
    MAX_QUOTA_RETRIES scenario_config = 0 /\
    snd (_generate scenario_config
           (always_fails (V:=string) "429 too many requests")) = []) \/
   (exists e i,
      always_fails (V:=string) "429 too many requests" i = Fail e /\
      absorbed_until (always_fails (V:=string) "429 too many requests")
        agent_is_rate_limit 0 i
        (snd (_generate scenario_config
                (always_fails (V:=string) "429 too many requests"))) /\
      ((RateLimitExceeded 3 "429 too many requests"
        = RateLimitExceeded (MAX_QUOTA_RETRIES scenario_config) e /\
        agent_is_rate_limit e = true /\
        S i = MAX_QUOTA_RETRIES scenario_config) \/
       (RateLimitExceeded 3 "429 too many requests" = Original e /\
        agent_is_rate_limit e = false /\
        S i <= MAX_QUOTA_RETRIES scenario_config))))
  /\
  ((Raised (A:=run_value string) (Original "invalid api key")
    = Returned (ErrorResponse (V:=string) "max_retries_exceeded") /\
    MAX_QUOTA_RETRIES default_config = 0 /\
    [Sleep AdaptiveDelay 24; Invoke 0]%Q = []) \/
   (exists i,
      absorbed_until (always_fails (V:=string) "invalid api key")
        (fun _ => true) 0 i [Sleep AdaptiveDelay 24; Invoke 0]%Q /\
      ((exists v,
          always_fails (V:=string) "invalid api key" i = Ok v /\
          Raised (A:=run_value string) (Original "invalid api key") = Returned (CrewOutput v)) \/
       (exists e,
          always_fails (V:=string) "invalid api key" i = Fail e /\
          crew_is_rate_limit e = true /\
          Raised (A:=run_value string) (Original "invalid api key")
          = Returned (ErrorResponse (V:=string) "rate_limit_exceeded") /\
          rate_limit_failures (always_fails (V:=string) "invalid api key")
            0 i = MAX_QUOTA_RETRIES default_config) \/
       (exists e,
          always_fails (V:=string) "invalid api key" i = Fail e /\
          crew_is_rate_limit e = false /\
          Raised (A:=run_value string) (Original "invalid api key") = Raised (Original e) /\
          3 <= 3)))).
Proof.
  split.
  - apply (proj1 (only_exhaustion_or_original_error string scenario_config
                    (always_fails "429 too many requests"))
             (RateLimitExceeded 3 "429 too many requests")
             (snd (_generate scenario_config
                     (always_fails "429 too many requests")))).
    vm_compute. reflexivity.
  - apply (proj2 (only_exhaustion_or_original_error string default_config
                    (always_fails "invalid api key"))
             3 (Raised (Original "invalid api key")) 3
             [Sleep AdaptiveDelay 24; Invoke 0]%Q).
    reflexivity.
Defined.

(** ** C5 *)

(** C5.  With [QUOTA_WAIT_TIME > 0] and [EXPONENTIAL_BACKOFF_BASE > 1], the
    exponential wait that [handle_quota_exceeded] computes for a retry count
    is non-decreasing in the retry count, never above [MAX_BACKOFF_TIME], and
    equal to [min(QUOTA_WAIT_TIME * base ** retry_count, MAX_BACKOFF_TIME)],
    for every retry count from 0 on.  The arithmetic is that of exact
    rationals. *)
Theorem exponential_wait_monotone_bounded (cls : GeminiConfig) (i j : nat) :
  (0 < QUOTA_WAIT_TIME cls)%Q ->
  (1 < EXPONENTIAL_BACKOFF_BASE cls)%Q ->
  i <= j ->
  (quota_wait_time cls i <= quota_wait_time cls j)%Q /\
  (quota_wait_time cls j <= MAX_BACKOFF_TIME cls)%Q /\
  (quota_wait_time cls i ==
   py_min (QUOTA_WAIT_TIME cls * py_pow (EXPONENTIAL_BACKOFF_BASE cls) i)
          (MAX_BACKOFF_TIME cls))%Q.
Proof.
  intros Hw Hb Hij. split; [| split].
  - apply quota_wait_time_mono; trivial. now apply Qlt_le_weak.
  - apply quota_wait_time_le_max.
  - now apply quota_wait_time_formula.
Qed.

Lemma exponential_wait_monotone_bounded_witness :
  (quota_wait_time default_config 1 <= quota_wait_time default_config 3)%Q /\
  (quota_wait_time default_config 3 <= MAX_BACKOFF_TIME default_config)%Q /\
  (quota_wait_time default_config 1 ==
   py_min (QUOTA_WAIT_TIME default_config
           * py_pow (EXPONENTIAL_BACKOFF_BASE default_config) 1)
          (MAX_BACKOFF_TIME default_config))%Q.
Proof.
  apply (exponential_wait_monotone_bounded default_config 1 3).
  - reflexivity.
  - reflexivity.
  - lia.
Defined.

(** ** C6 *)

(** C6, as amended.  [is_quota_error] holds exactly when the lower-cased
    message contains one of the eight entries of [quota_indicators], and
    the test of [_generate] exactly when it contains one of
    [agent_indicators] (which adds "quota" on its own).  Hence a message
    that contains an indicator as it is written is classified as a
    rate-limit error, whatever its letter case elsewhere. *)
Theorem classifier_matches_indicators (e : string) :
  (is_quota_error e = true <->
   exists indicator,
     In indicator quota_indicators /\
     PyStr.substring_of indicator (PyStr.lower e))
  /\
  (agent_is_rate_limit e = true <->
   exists indicator,
     In indicator agent_indicators /\
     PyStr.substring_of indicator (PyStr.lower e))
  /\
  (forall indicator,
     In indicator quota_indicators ->
     PyStr.substring_of indicator e -> is_quota_error e = true)
  /\
  (forall indicator,
     In indicator agent_indicators ->
     PyStr.substring_of indicator e -> agent_is_rate_limit e = true).
Proof.
  assert (Hq : is_quota_error e = true <->
               exists indicator,
                 In indicator quota_indicators /\
                 PyStr.substring_of indicator (PyStr.lower e))
    by apply existsb_contains_spec.
  assert (Ha : agent_is_rate_limit e = true <->
               exists indicator,
                 In indicator agent_indicators /\
                 PyStr.substring_of indicator (PyStr.lower e))
    by (rewrite agent_is_rate_limit_existsb; apply existsb_contains_spec).
  repeat split; try apply Hq; try apply Ha.
  - intros indicator Hin Hsub. apply Hq. exists indicator.
    split; [assumption |].
    apply PyStrFacts.substring_of_lower; [| assumption].
    apply crew_indicators_lower. unfold crew_indicators, agent_indicators.
    apply in_or_app; left. apply in_or_app; now left.
  - intros indicator Hin Hsub. apply Ha. exists indicator.
    split; [assumption |].
    apply PyStrFacts.substring_of_lower; [| assumption].
    apply crew_indicators_lower. unfold crew_indicators.
    apply in_or_app; now left.
Qed.

Lemma classifier_matches_indicators_witness :
  is_quota_error "HTTP 429: Too Many Requests" = true /\
  agent_is_rate_limit "Quota used up" = true.
Proof.
  split.
  - apply (proj1 (proj2 (proj2
             (classifier_matches_indicators "HTTP 429: Too Many Requests")))
             "429").
    + simpl. tauto.
    + exists "HTTP ", ": Too Many Requests". reflexivity.
  - apply (proj2 (proj1 (proj2
             (classifier_matches_indicators "Quota used up")))).
    exists "quota". split.
    + simpl. tauto.
    + exists "", " used up". reflexivity.
Defined.

(** C6 as stated fails: "resource exhausted", written with a space, and
    "quota" on its own are named as indicators, but a message that is
    exactly "resource exhausted" is classified as no rate-limit error by
    every classifier of the source, and "quota" is not one for
    [is_quota_error]. *)
Lemma resource_exhausted_with_space_not_matched :
  PyStr.substring_of "resource exhausted" "resource exhausted" /\
  is_quota_error "resource exhausted" = false /\
  agent_is_rate_limit "resource exhausted" = false /\
  crew_is_rate_limit "resource exhausted" = false /\
  PyStr.substring_of "quota" "quota" /\
  is_quota_error "quota" = false.
Proof.
  repeat split; try reflexivity; exists "", ""; reflexivity.
Qed.

(** ** C7 *)

(** C7, as amended.  With a budget of three attempts and a call that raises
    "429 rate limit" twice and then succeeds, the call is invoked exactly
    three times, the value is returned, the rate-limit waits are 60 and 90
    seconds, and [consecutive_errors] is 0 afterwards.  Besides these two
    waits [_generate] sleeps [REQUEST_DELAY] before each retry, and [run]
    sleeps the delay of the head of the [try] block before each of the
    three attempts. *)
Theorem scenario_two_failures_then_success (V : Type) (v : V) :
  _generate scenario_config (fails_then_succeeds 2 "429 rate limit" v)
    = (Returned v,
       [Invoke 0; Sleep RateLimitWait 60; Sleep RequestDelay 3;
        Invoke 1; Sleep RateLimitWait 90; Sleep RequestDelay 3;
        Invoke 2]%Q)
  /\
  run scenario_config (fails_then_succeeds 2 "429 rate limit" v) 0
    = ((Returned (CrewOutput v), 0),
       [Sleep RequestDelay 3; Invoke 0; Sleep RateLimitWait 60;
        Sleep AdaptiveDelay 6; Invoke 1; Sleep RateLimitWait 90;
        Sleep AdaptiveDelay 12; Invoke 2]%Q)
  /\
  (forall consecutive_errors,
     let r := run scenario_config
                (fails_then_succeeds 2 "429 rate limit" v)
                consecutive_errors in
     fst r = (Returned (CrewOutput v), 0) /\
     invocations (snd r) = [0; 1; 2] /\
     waits_at RateLimitWait (snd r) = [60; 90]%Q).
Proof.
  split; [reflexivity |]. split; [reflexivity |].
  intros ce r. subst r. unfold run.
  destruct (run_loop_succeeds scenario_config
              (fails_then_succeeds 2 "429 rate limit" v) 2 0 ce 0 v)
    as [Hout [Hinv [Hw _]]].
  - simpl. lia.
  - intros [|[|i]] Hi; [reflexivity | reflexivity | simpl in Hi; lia].
  - reflexivity.
  - now rewrite Hout, Hinv, Hw.
Qed.

(** C7 as stated fails: the sleeps performed in the scenario are not just
    60 and 90 seconds, neither in [_generate] nor in [run]. *)
Lemma scenario_has_other_waits :
  let call := fails_then_succeeds 2 "429 rate limit" "game" in
  waits (snd (_generate scenario_config call)) = [60; 3; 90; 3]%Q /\
  waits (snd (run scenario_config call 0)) = [3; 60; 6; 90; 12]%Q /\
  waits (snd (_generate scenario_config call)) <> [60; 90]%Q /\
  waits (snd (run scenario_config call 0)) <> [60; 90]%Q.
Proof.
  split; [reflexivity |]. split; [reflexivity |].
  split; vm_compute; discriminate.
Qed.

(** ** The seconds slept before every invocation of [run] *)

Lemma pre_attempt_delay_seconds (cls : GeminiConfig)
  (consecutive_errors : nat) :
  exists site,
    is_pre_attempt site = true /\
    pre_attempt_delay cls consecutive_errors
    = Sleep site (head_delay_seconds cls consecutive_errors).
Proof.
  unfold pre_attempt_delay, head_delay_seconds. cbv zeta.
  destruct (py_gt _ _); [exists AdaptiveDelay | exists RequestDelay];
    split; reflexivity.
Qed.

Lemma run_loop_calls_follow_head_delay (V : Type) (cls : GeminiConfig)
  (kickoff : nat -> attempt V) :
  forall quota_retry_count consecutive_errors calls,
    calls_follow_head_delay cls consecutive_errors None
      (snd (run_loop cls kickoff quota_retry_count consecutive_errors calls)).
Proof.
  match goal with
  | |- forall q ce calls, @?P q ce calls =>
      apply (run_loop_induction cls kickoff P)
  end.
  intros q ce calls IHrate IHother. cbv beta in IHrate, IHother |- *.
  rewrite run_loop_body.
  destruct (pre_attempt_delay_seconds cls ce) as [site [Hsite Hpre]].
  destruct (lt_dec q (MAX_QUOTA_RETRIES cls)) as [Hq | Hq]; [| exact I].
  destruct (kickoff calls) as [result | e] eqn:E.
  - cbn [snd]. rewrite Hpre. cbn [calls_follow_head_delay].
    rewrite Hsite. now split.
  - destruct (crew_is_rate_limit e) eqn:C.
    + destruct (lt_dec q (MAX_QUOTA_RETRIES cls - 1)) as [Hq' | Hq'].
      * rewrite snd_after, Hpre. cbn [app calls_follow_head_delay].
        rewrite Hsite. cbn [is_pre_attempt]. split; [reflexivity |].
        now apply (IHrate e).
      * cbn [snd]. rewrite Hpre. cbn [calls_follow_head_delay].
        rewrite Hsite. now split.
    + destruct (lt_dec ce 3) as [Hce | Hce].
      * rewrite snd_after, Hpre. cbn [app calls_follow_head_delay].
        rewrite Hsite. cbn [is_pre_attempt]. split; [reflexivity |].
        now apply (IHother e).
      * cbn [snd]. rewrite Hpre. cbn [calls_follow_head_delay].
        rewrite Hsite. now split.
Qed.

Lemma errors_before_sleep (site : sleep_site) (seconds : Q) (tr : trace) :
  errors_before (Sleep site seconds :: tr)
  = (if is_pre_attempt site then 0 else 1) + errors_before tr.
Proof.
  unfold errors_before. destruct site; simpl; lia.
Qed.

Lemma errors_before_invoke (i : nat) (tr : trace) :
  errors_before (Invoke i :: tr) = errors_before tr.
Proof. reflexivity. Qed.

(** What [calls_follow_head_delay] says of each invocation of a trace: the
    event before it is a sleep of the head of the [try] block, and its
    seconds are those for the error count reached by then. *)
Lemma calls_follow_head_delay_split (cls : GeminiConfig) (tr : trace) :
  forall consecutive_errors pending,
    calls_follow_head_delay cls consecutive_errors pending tr ->
    forall before i rest,
      tr = before ++ Invoke i :: rest ->
      (before = [] /\
       pending = Some (head_delay_seconds cls consecutive_errors)) \/
      (exists before' site,
         is_pre_attempt site = true /\
         before
         = before'
           ++ [Sleep site
                 (head_delay_seconds cls
                    (consecutive_errors + errors_before before))]).
Proof.
  induction tr as [| ev tr IH]; intros ce pending H before i rest Htr.
  - now destruct before.
  - destruct ev as [site seconds | j].
    + destruct before as [| ev' before]; [discriminate |].
      injection Htr as <- Htr. right.
      cbn [calls_follow_head_delay] in H.
      rewrite errors_before_sleep.
      destruct (is_pre_attempt site) eqn:Hsite.
      * destruct (IH ce (Some seconds) H before i rest Htr)
          as [[-> Hp] | [before' [site' [Hsite' Hb]]]].
        -- injection Hp as ->. exists [], site. split; [assumption |].
           cbn [app]. now rewrite Nat.add_0_r.
        -- exists (Sleep site seconds :: before'), site'.
           split; [assumption |]. cbn [app plus]. now rewrite <- Hb.
      * destruct (IH (S ce) None H before i rest Htr)
          as [[_ Hp] | [before' [site' [Hsite' Hb]]]]; [discriminate |].
        exists (Sleep site seconds :: before'), site'.
        split; [assumption |]. cbn [app].
        replace (ce + (1 + errors_before before))
          with (S ce + errors_before before) by lia.
        now rewrite <- Hb.
    + cbn [calls_follow_head_delay] in H. destruct H as [Hp H].
      destruct before as [| ev' before]; [now left |].
      injection Htr as <- Htr. right.
      rewrite errors_before_invoke.
      destruct (IH ce None H before i rest Htr)
        as [[_ Hp'] | [before' [site' [Hsite' Hb]]]]; [discriminate |].
      exists (Invoke j :: before'), site'.
      split; [assumption |]. cbn [app]. now rewrite <- Hb.
Qed.

(** Every invocation made by [run] comes directly after a sleep of the head
    of the [try] block that lasts [head_delay_seconds] for the error count
    of that moment. *)
Lemma run_head_delay_seconds (V : Type) (cls : GeminiConfig)
  (kickoff : nat -> attempt V) (consecutive_errors : nat)
  (before : trace) (i : nat) (rest : trace) :
  snd (run cls kickoff consecutive_errors) = before ++ Invoke i :: rest ->
  exists before' site,
    is_pre_attempt site = true /\
    before
    = before'
      ++ [Sleep site
            (head_delay_seconds cls
               (consecutive_errors + errors_before before))].
Proof.
  intros Htr.
  destruct (calls_follow_head_delay_split cls _ consecutive_errors None
              (run_loop_calls_follow_head_delay V cls kickoff
                 0 consecutive_errors 0)
              before i rest Htr) as [[_ Hp] | H]; [discriminate | exact H].
Qed.

(** ** C8 *)

(** C8, as amended.  For a positive error count, and for a count of 0 when
    [REQUEST_DELAY <= MAX_BACKOFF_TIME], the adaptive delay is
    [min(REQUEST_DELAY * base ** min(count, 5), MAX_BACKOFF_TIME)]: the
    exponent is capped at 5 and the delay never exceeds [MAX_BACKOFF_TIME].
    [run] computes it at the head of every iteration of its loop, so every
    invocation of the call, the retries included, comes directly after a
    sleep of that delay (or of [REQUEST_DELAY] when the adaptive delay is not
    greater).  The seconds of that sleep are the adaptive delay for the
    value that [self.consecutive_errors] has at that invocation, the value
    at the call of [run] plus the rate-limit waits and error back-offs
    slept before it, when this delay is greater than [REQUEST_DELAY], and
    [REQUEST_DELAY] otherwise. *)
Theorem adaptive_delay_before_every_attempt (cls : GeminiConfig) (n : nat) :
  (1 <= n \/ (REQUEST_DELAY cls <= MAX_BACKOFF_TIME cls)%Q) ->
  (get_adaptive_delay cls n ==
   py_min (REQUEST_DELAY cls
           * py_pow (EXPONENTIAL_BACKOFF_BASE cls) (Nat.min n 5))
          (MAX_BACKOFF_TIME cls))%Q
  /\ (get_adaptive_delay cls n <= MAX_BACKOFF_TIME cls)%Q
  /\ (5 <= n -> get_adaptive_delay cls n = get_adaptive_delay cls 5)
  /\ (forall (V : Type) (kickoff : nat -> attempt V) consecutive_errors,
        calls_delayed false (snd (run cls kickoff consecutive_errors))
        = true)
  /\ (forall (V : Type) (kickoff : nat -> attempt V) consecutive_errors
        before i rest,
        snd (run cls kickoff consecutive_errors)
        = before ++ Invoke i :: rest ->
        exists before' site seconds,
          before = before' ++ [Sleep site seconds] /\
          is_pre_attempt site = true /\
          seconds
          = head_delay_seconds cls
              (consecutive_errors + errors_before before) /\
          seconds
          = (if py_gt (get_adaptive_delay cls
                         (consecutive_errors + errors_before before))
                      (REQUEST_DELAY cls)
             then get_adaptive_delay cls
                    (consecutive_errors + errors_before before)
             else REQUEST_DELAY cls)).
Proof.
  intros H. split; [| split; [| split; [| split]]].
  - now apply get_adaptive_delay_formula.
  - now apply get_adaptive_delay_le_max.
  - apply get_adaptive_delay_capped.
  - intros V kickoff ce. apply run_loop_calls_delayed.
  - intros V kickoff ce before i rest Htr.
    destruct (run_head_delay_seconds V cls kickoff ce before i rest Htr)
      as [before' [site [Hsite Hb]]].
    exists before', site,
      (head_delay_seconds cls (ce + errors_before before)).
    repeat split; assumption || reflexivity.
Qed.

Lemma adaptive_delay_before_every_attempt_witness :
  (get_adaptive_delay default_config 7 ==
   py_min (REQUEST_DELAY default_config
           * py_pow (EXPONENTIAL_BACKOFF_BASE default_config) (Nat.min 7 5))
          (MAX_BACKOFF_TIME default_config))%Q
  /\ (get_adaptive_delay default_config 7
      <= MAX_BACKOFF_TIME default_config)%Q
  /\ get_adaptive_delay default_config 7 = get_adaptive_delay default_config 5
  /\ calls_delayed false
       (snd (run default_config
               (fails_then_succeeds 1 "429 rate limit" "game") 0))
     = true
  /\ (exists before' site seconds,
        [Sleep RequestDelay 3; Invoke 0; Sleep RateLimitWait 60;
         Sleep AdaptiveDelay 6]%Q
        = before' ++ [Sleep site seconds] /\
        is_pre_attempt site = true /\
        seconds
        = head_delay_seconds default_config
            (0 + errors_before
                   [Sleep RequestDelay 3; Invoke 0; Sleep RateLimitWait 60;
                    Sleep AdaptiveDelay 6]%Q) /\
        seconds
        = (if py_gt (get_adaptive_delay default_config
                       (0 + errors_before
                              [Sleep RequestDelay 3; Invoke 0;
                               Sleep RateLimitWait 60;
                               Sleep AdaptiveDelay 6]%Q))
                    (REQUEST_DELAY default_config)
           then get_adaptive_delay default_config
                  (0 + errors_before
                         [Sleep RequestDelay 3; Invoke 0;
                          Sleep RateLimitWait 60;
                          Sleep AdaptiveDelay 6]%Q)
           else REQUEST_DELAY default_config)).
Proof.
  assert (H : 1 <= 7 \/
              (REQUEST_DELAY default_config
               <= MAX_BACKOFF_TIME default_config)%Q) by (left; lia).
  pose proof (adaptive_delay_before_every_attempt default_config 7 H)
    as [Hformula [Hmax [Hcap [Hrun Hseconds]]]].
  split; [exact Hformula |]. split; [exact Hmax |].
  split; [apply Hcap; lia |]. split; [apply Hrun |].
  apply (Hseconds string (fails_then_succeeds 1 "429 rate limit" "game") 0
           [Sleep RequestDelay 3; Invoke 0; Sleep RateLimitWait 60;
            Sleep AdaptiveDelay 6]%Q
           1 []).
  reflexivity.
Defined.

(** C8 as stated fails: when the first attempt fails with a rate-limit
    error, [run] sleeps the adaptive delay for one consecutive error, 6
    seconds, between the 60-second wait and the second attempt. *)
Lemma adaptive_delay_between_retries :
  let r := run default_config
             (fails_then_succeeds 1 "429 rate limit" "game") 0 in
  get_adaptive_delay default_config 1 = 6%Q /\
  snd r =
    [Sleep RequestDelay 3; Invoke 0; Sleep RateLimitWait 60]%Q
    ++ Sleep AdaptiveDelay (get_adaptive_delay default_config 1)
    :: [Invoke 1] /\
  waits_at AdaptiveDelay (skipn 2 (snd r)) <> [].
Proof.
  split; [reflexivity |]. split; [reflexivity |].
  vm_compute. discriminate.
Qed.

(** ** C9 *)

(** C9.  Whenever [run] returns the result of [crew.kickoff()], the field
    [consecutive_errors] is 0 afterwards, whatever it held before and
    however many attempts failed during the run. *)
Theorem success_resets_consecutive_errors (V : Type) (cls : GeminiConfig)
  (kickoff : nat -> attempt V) (consecutive_errors : nat) (v : V) :
  fst (fst (run cls kickoff consecutive_errors)) = Returned (CrewOutput v) ->
  snd (fst (run cls kickoff consecutive_errors)) = 0.
Proof.
  unfold run. intros H.
  destruct (run_loop_success cls kickoff 0 consecutive_errors 0 v
              (snd (fst (run_loop cls kickoff 0 consecutive_errors 0))))
    as [Hzero _]; [| assumption].
  destruct (run_loop cls kickoff 0 consecutive_errors 0) as [[o a] tr].
  simpl in *. now subst o.
Qed.

Lemma success_resets_consecutive_errors_witness :
  snd (fst (run default_config
              (fails_then_succeeds 2 "quota exceeded" "game") 2)) = 0.
Proof.
  apply (success_resets_consecutive_errors string default_config
           (fails_then_succeeds 2 "quota exceeded" "game") 2 "game").
  reflexivity.
Defined.

(** ** C10 *)

(** C10.  [run] classifies as a rate-limit error every exception whose
    lower-cased message contains "iteration limit" or "time limit", though
    neither is an entry of [quota_indicators] and neither [is_quota_error]
    nor the test of [_generate] accepts such a message on that ground; below
    the last permitted attempt the failure is answered by the rate-limit
    wait [60 + 30 * quota_retry_count] and another attempt. *)
Theorem crew_widens_rate_limit_classification (V : Type)
  (cls : GeminiConfig) (kickoff : nat -> attempt V) (e : string)
  (quota_retry_count consecutive_errors calls : nat) :
  PyStr.substring_of "iteration limit" (PyStr.lower e) \/
  PyStr.substring_of "time limit" (PyStr.lower e) ->
  crew_is_rate_limit e = true
  /\ ~ In "iteration limit" quota_indicators
  /\ ~ In "time limit" quota_indicators
  /\ is_quota_error "iteration limit" = false
  /\ is_quota_error "time limit" = false
  /\ agent_is_rate_limit "iteration limit" = false
  /\ agent_is_rate_limit "time limit" = false
  /\ (kickoff calls = Fail e ->
      quota_retry_count < MAX_QUOTA_RETRIES cls - 1 ->
      run_loop cls kickoff quota_retry_count consecutive_errors calls =
      after [pre_attempt_delay cls consecutive_errors; Invoke calls;
             Sleep RateLimitWait
               (inject_Z (60 + Z.of_nat quota_retry_count * 30))]
            (run_loop cls kickoff (S quota_retry_count)
               (S consecutive_errors) (S calls))).
Proof.
  intros H.
  assert (C : crew_is_rate_limit e = true).
  { rewrite crew_is_rate_limit_existsb. apply existsb_contains_spec.
    destruct H as [H | H];
      [exists "iteration limit" | exists "time limit"];
      (split; [simpl; tauto | assumption]). }
  split; [assumption |].
  split; [simpl; intuition discriminate |].
  split; [simpl; intuition discriminate |].
  do 4 (split; [reflexivity |]).
  intros E Hq. now apply run_loop_rate_limit_step with e.
Qed.

Lemma crew_widens_rate_limit_classification_witness :
  crew_is_rate_limit "Agent stopped due to iteration limit or time limit."
    = true
  /\ run default_config
       (always_fails (V:=string)
          "Agent stopped due to iteration limit or time limit.") 0
     = after [pre_attempt_delay default_config 0; Invoke 0;
              Sleep RateLimitWait (inject_Z (60 + Z.of_nat 0 * 30))]
             (run_loop default_config
                (always_fails
                   "Agent stopped due to iteration limit or time limit.")
                1 1 1).
Proof.
  pose proof (crew_widens_rate_limit_classification string default_config
                (always_fails
                   "Agent stopped due to iteration limit or time limit.")
                "Agent stopped due to iteration limit or time limit."
                0 0 0) as H.
  destruct H as [C [_ [_ [_ [_ [_ [_ Hstep]]]]]]].
  - left. exists "agent stopped due to ", " or time limit.". reflexivity.
  - split; [exact C |]. apply Hstep; [reflexivity | simpl; lia].
Defined.

(** * Further properties of the code *)

(** ** Classification and the text of exceptions *)

Lemma substring_of_trans (a b c : string) :
  PyStr.substring_of a b -> PyStr.substring_of b c -> PyStr.substring_of a c.
Proof.
  intros [pre1 [post1 ->]] [pre2 [post2 ->]].
  exists (pre2 ++ pre1)%string, (post1 ++ post2)%string.
  clear. induction pre2 as [|ch pre2 IH]; simpl.
  - induction pre1 as [|ch pre1 IH]; simpl; [| now rewrite IH].
    induction a as [|ch a IH]; simpl; [reflexivity | now rewrite IH].
  - now rewrite IH.
Qed.

Lemma substring_of_lower_both (a b : string) :
  PyStr.substring_of a b ->
  PyStr.substring_of (PyStr.lower a) (PyStr.lower b).
Proof.
  intros [pre [post ->]]. exists (PyStr.lower pre), (PyStr.lower post).
  now rewrite !PyStrFacts.lower_app.
Qed.

Lemma existsb_contains_wrapping (indicators : list string) (e e' : string) :
  PyStr.substring_of e e' ->
  existsb (fun indicator => indicator in_ PyStr.lower e) indicators = true ->
  existsb (fun indicator => indicator in_ PyStr.lower e') indicators = true.
Proof.
  intros Hsub H. apply existsb_contains_spec in H.
  destruct H as [indicator [Hin Hind]].
  apply existsb_contains_spec. exists indicator. split; [assumption |].
  apply substring_of_trans with (PyStr.lower e); [assumption |].
  now apply substring_of_lower_both.
Qed.

Lemma is_quota_error_wrapping (e e' : string) :
  PyStr.substring_of e e' ->
  is_quota_error e = true -> is_quota_error e' = true.
Proof. apply existsb_contains_wrapping. Qed.

Lemma crew_is_rate_limit_wrapping (e e' : string) :
  PyStr.substring_of e e' ->
  crew_is_rate_limit e = true -> crew_is_rate_limit e' = true.
Proof.
  rewrite !crew_is_rate_limit_existsb. apply existsb_contains_wrapping.
Qed.

Lemma agent_is_rate_limit_wrapping (e e' : string) :
  PyStr.substring_of e e' ->
  agent_is_rate_limit e = true -> agent_is_rate_limit e' = true.
Proof.
  rewrite !agent_is_rate_limit_existsb. apply existsb_contains_wrapping.
Qed.

Lemma is_quota_error_implies_agent (e : string) :
  is_quota_error e = true -> agent_is_rate_limit e = true.
Proof. unfold agent_is_rate_limit. intros ->. reflexivity. Qed.

Lemma exhaustion_message_is_quota_error (x : exn) :
  (forall e, x <> Original e) -> is_quota_error (exn_message x) = true.
Proof.
  intros Hx. destruct x as [e | n ctx |]; [now contradiction (Hx e) | |].
  - apply is_quota_error_wrapping with "Rate limit"; [| reflexivity].
    exists "". eexists. simpl. reflexivity.
  - reflexivity.
Qed.

(** X1.  Wrapping the text of an error in a longer message keeps it a
    rate-limit error for each of the three tests. *)
Theorem classification_survives_wrapping (e e' : string) :
  PyStr.substring_of e e' ->
  (is_quota_error e = true -> is_quota_error e' = true) /\
  (agent_is_rate_limit e = true -> agent_is_rate_limit e' = true) /\
  (crew_is_rate_limit e = true -> crew_is_rate_limit e' = true).
Proof.
  intros H. split; [| split].
  - now apply is_quota_error_wrapping.
  - now apply agent_is_rate_limit_wrapping.
  - now apply crew_is_rate_limit_wrapping.
Qed.

Lemma classification_survives_wrapping_witness :
  is_quota_error "Could not create qa agent: 429 Too Many Requests" = true.
Proof.
  apply (proj1 (classification_survives_wrapping
                  "429 Too Many Requests"
                  "Could not create qa agent: 429 Too Many Requests"
                  (ex_intro _ "Could not create qa agent: "
                     (ex_intro _ "" eq_refl)))).
  reflexivity.
Defined.

(** X2.  An exception that leaves [_generate] is either the original one,
    which its own test does not take for a rate-limit error, or one of its
    two exhaustion exceptions, whose text [is_quota_error] and the test of
    [run] both take for a rate-limit error. *)
Theorem generate_exception_classification (V : Type) (cls : GeminiConfig)
  (call : nat -> attempt V) (x : exn) (tr : trace) :
  _generate cls call = (Raised x, tr) ->
  (exists e, x = Original e /\ agent_is_rate_limit e = false /\
             is_quota_error (exn_message x) = false) \/
  ((forall e, x <> Original e) /\
   is_quota_error (exn_message x) = true /\
   crew_is_rate_limit (exn_message x) = true).
Proof.
  intros H.
  pose proof (generate_loop_raises cls call (MAX_QUOTA_RETRIES cls) 0 x
                eq_refl) as Hr.
  fold (_generate cls call) in Hr. rewrite H in Hr.
  assert (Hex : (forall e, x <> Original e) ->
                (forall e, x <> Original e) /\
                is_quota_error (exn_message x) = true /\
                crew_is_rate_limit (exn_message x) = true).
  { intros Hx. split; [assumption |].
    pose proof (exhaustion_message_is_quota_error x Hx) as Hq.
    split; [assumption |].
    now apply agent_implies_crew, is_quota_error_implies_agent. }
  destruct (Hr eq_refl) as [[-> _] | [[e [i [-> _]]] | [e [i [-> [C _]]]]]].
  - right. apply Hex. discriminate.
  - right. apply Hex. discriminate.
  - left. exists e. repeat split; trivial. simpl.
    destruct (is_quota_error e) eqn:Q; [| reflexivity].
    now rewrite (is_quota_error_implies_agent e Q) in C.
Qed.

Lemma generate_exception_classification_witness :
  (exists e,
     RateLimitExceeded 10 "quota exceeded" = Original e /\
     agent_is_rate_limit e = false /\
     is_quota_error (exn_message (RateLimitExceeded 10 "quota exceeded"))
     = false) \/
  ((forall e, RateLimitExceeded 10 "quota exceeded" <> Original e) /\
   is_quota_error (exn_message (RateLimitExceeded 10 "quota exceeded"))
   = true /\
   crew_is_rate_limit (exn_message (RateLimitExceeded 10 "quota exceeded"))
   = true).
Proof.
  apply (generate_exception_classification string default_config
           (always_fails "quota exceeded")
           (RateLimitExceeded 10 "quota exceeded")
           (snd (_generate default_config
                   (always_fails (V:=string) "quota exceeded")))).
  reflexivity.
Defined.

(** ** The loop of [run], for every wrapped call *)

Section RunFacts.

Context {V : Type}.
Variable cls : GeminiConfig.
Variable kickoff : nat -> attempt V.

Let max_retries := MAX_QUOTA_RETRIES cls.
Let loop := run_loop cls kickoff.
Let pre := pre_attempt_delay cls.

Lemma waits_at_pre_other (site : sleep_site) (consecutive_errors : nat)
  (tr : trace) :
  is_pre_attempt site = false ->
  waits_at site (pre consecutive_errors :: tr) = waits_at site tr.
Proof.
  intros Hsite.
  destruct (pre_is_sleep cls consecutive_errors) as [s [d [Hpre Hs]]].
  subst pre. rewrite Hpre. simpl.
  destruct s, site; try discriminate; reflexivity.
Qed.

Lemma run_loop_invocations (quota_retry_count consecutive_errors calls : nat) :
  exists k,
    invocations (snd (loop quota_retry_count consecutive_errors calls))
    = seq calls k /\
    k <= (max_retries - quota_retry_count) + (3 - consecutive_errors).
Proof.
  revert quota_retry_count consecutive_errors calls.
  apply run_loop_induction with (cls := cls) (kickoff := kickoff).
  intros q ce calls IHrate IHother.
  fold max_retries in IHrate, IHother. fold loop in IHrate, IHother.
  unfold loop. rewrite run_loop_body. fold loop. fold max_retries. fold pre.
  destruct (lt_dec q max_retries) as [Hq | Hq];
    [| exists 0; split; [reflexivity | lia]].
  destruct (kickoff calls) as [result | e] eqn:E.
  - exists 1. cbn [snd]. rewrite (invocations_pre cls). split; [reflexivity | lia].
  - destruct (crew_is_rate_limit e) eqn:C.
    + destruct (lt_dec q (max_retries - 1)) as [Hq' | Hq'].
      * destruct (IHrate e eq_refl C Hq') as [k [Hk Hle]].
        exists (S k). rewrite snd_after. cbn [app].
        rewrite (invocations_pre cls). cbn [invocations]. rewrite Hk.
        split; [reflexivity | lia].
      * exists 1. cbn [snd]. rewrite (invocations_pre cls).
        split; [reflexivity | lia].
    + destruct (lt_dec ce 3) as [Hce | Hce].
      * destruct (IHother e eq_refl C Hq Hce) as [k [Hk Hle]].
        exists (S k). rewrite snd_after. cbn [app].
        rewrite (invocations_pre cls). cbn [invocations]. rewrite Hk.
        split; [reflexivity | lia].
      * exists 1. cbn [snd]. rewrite (invocations_pre cls).
        split; [reflexivity | lia].
Qed.

Local Ltac run_loop_start :=
  match goal with
  | |- forall q ce calls, @?P q ce calls =>
      apply (run_loop_induction cls kickoff P)
  end.

Local Ltac run_loop_step IHrate IHother :=
  cbv beta in IHrate, IHother |- *;
  fold max_retries in IHrate, IHother; fold loop in IHrate, IHother;
  unfold loop; rewrite run_loop_body; fold loop; fold max_retries; fold pre.

Lemma run_loop_rate_limit_waits
  (quota_retry_count consecutive_errors calls : nat) :
  exists k,
    waits_at RateLimitWait
      (snd (loop quota_retry_count consecutive_errors calls))
    = map rate_limit_wait (seq quota_retry_count k) /\
    k <= max_retries - 1 - quota_retry_count.
Proof.
  revert quota_retry_count consecutive_errors calls.
  run_loop_start.
  intros q ce calls IHrate IHother. run_loop_step IHrate IHother.
  destruct (lt_dec q max_retries) as [Hq | Hq];
    [| exists 0; split; [reflexivity | lia]].
  destruct (kickoff calls) as [result | e] eqn:E.
  - exists 0. cbn [snd]. rewrite (waits_at_pre cls).
    split; [reflexivity | lia].
  - destruct (crew_is_rate_limit e) eqn:C.
    + destruct (lt_dec q (max_retries - 1)) as [Hq' | Hq'].
      * destruct (IHrate e eq_refl C Hq') as [k [Hk Hle]].
        exists (S k). rewrite snd_after. cbn [app].
        rewrite (waits_at_pre cls). cbn [waits_at sleep_site_eqb].
        rewrite Hk. split; [reflexivity | lia].
      * exists 0. cbn [snd]. rewrite (waits_at_pre cls).
        split; [reflexivity | lia].
    + destruct (lt_dec ce 3) as [Hce | Hce].
      * destruct (IHother e eq_refl C Hq Hce) as [k [Hk Hle]].
        exists k. rewrite snd_after. cbn [app].
        rewrite (waits_at_pre cls). cbn [waits_at sleep_site_eqb].
        rewrite Hk. split; [reflexivity | lia].
      * exists 0. cbn [snd]. rewrite (waits_at_pre cls).
        split; [reflexivity | lia].
Qed.

Lemma error_backoff_values (consecutive_errors : nat) :
  consecutive_errors < 3 ->
  In (error_backoff (S consecutive_errors)) [20; 40; 80]%Q.
Proof.
  intros H. destruct consecutive_errors as [|[|[|n]]]; simpl; try tauto. lia.
Qed.

Lemma run_loop_backoff_waits
  (quota_retry_count consecutive_errors calls : nat) :
  length (waits_at ErrorBackoff
            (snd (loop quota_retry_count consecutive_errors calls)))
  <= 3 - consecutive_errors /\
  Forall (fun d => In d [20; 40; 80]%Q)
    (waits_at ErrorBackoff
       (snd (loop quota_retry_count consecutive_errors calls))).
Proof.
  revert quota_retry_count consecutive_errors calls.
  run_loop_start.
  intros q ce calls IHrate IHother. run_loop_step IHrate IHother.
  destruct (lt_dec q max_retries) as [Hq | Hq];
    [| split; [simpl; lia | constructor]].
  destruct (kickoff calls) as [result | e] eqn:E.
  - cbn [snd]. rewrite waits_at_pre_other by reflexivity.
    split; [simpl; lia | constructor].
  - destruct (crew_is_rate_limit e) eqn:C.
    + destruct (lt_dec q (max_retries - 1)) as [Hq' | Hq'].
      * destruct (IHrate e eq_refl C Hq') as [Hlen Hall].
        rewrite snd_after. cbn [app].
        rewrite waits_at_pre_other by reflexivity.
        cbn [waits_at sleep_site_eqb]. split; [lia | assumption].
      * cbn [snd]. rewrite waits_at_pre_other by reflexivity.
        split; [simpl; lia | constructor].
    + destruct (lt_dec ce 3) as [Hce | Hce].
      * destruct (IHother e eq_refl C Hq Hce) as [Hlen Hall].
        rewrite snd_after. cbn [app].
        rewrite waits_at_pre_other by reflexivity.
        cbn [waits_at sleep_site_eqb]. split.
        -- cbn [length]. lia.
        -- constructor; [now apply error_backoff_values | assumption].
      * cbn [snd]. rewrite waits_at_pre_other by reflexivity.
        split; [simpl; lia | constructor].
Qed.

Lemma run_loop_counter (quota_retry_count consecutive_errors calls : nat) :
  snd (fst (loop quota_retry_count consecutive_errors calls)) =
  counter_after consecutive_errors
    (loop quota_retry_count consecutive_errors calls).
Proof.
  revert quota_retry_count consecutive_errors calls.
  run_loop_start.
  intros q ce calls IHrate IHother. run_loop_step IHrate IHother.
  unfold counter_after.
  destruct (lt_dec q max_retries) as [Hq | Hq]; [| simpl; lia].
  destruct (kickoff calls) as [result | e] eqn:E; [reflexivity |].
  destruct (crew_is_rate_limit e) eqn:C.
  - destruct (lt_dec q (max_retries - 1)) as [Hq' | Hq'].
    + rewrite fst_after, snd_after, (IHrate e eq_refl C Hq').
      unfold counter_after. cbn [app].
      rewrite (waits_at_pre cls), waits_at_pre_other by reflexivity.
      cbn [waits_at sleep_site_eqb length].
      destruct (fst (fst (loop (S q) (S ce) (S calls)))) as [[v | k] | x];
        lia.
    + cbn [fst snd].
      rewrite (waits_at_pre cls), waits_at_pre_other by reflexivity.
      simpl. lia.
  - destruct (lt_dec ce 3) as [Hce | Hce].
    + rewrite fst_after, snd_after, (IHother e eq_refl C Hq Hce).
      unfold counter_after. cbn [app].
      rewrite (waits_at_pre cls), waits_at_pre_other by reflexivity.
      cbn [waits_at sleep_site_eqb length].
      destruct (fst (fst (loop q (S ce) (S calls)))) as [[v | k] | x];
        lia.
    + cbn [fst snd].
      rewrite (waits_at_pre cls), waits_at_pre_other by reflexivity.
      simpl. lia.
Qed.

Lemma run_loop_error_response
  (quota_retry_count consecutive_errors calls : nat) (error_type : string) :
  fst (fst (loop quota_retry_count consecutive_errors calls))
    = Returned (ErrorResponse error_type) ->
  (error_type = "rate_limit_exceeded" /\ quota_retry_count < max_retries) \/
  (error_type = "max_retries_exceeded" /\ max_retries <= quota_retry_count
   /\ snd (loop quota_retry_count consecutive_errors calls) = []).
Proof.
  revert quota_retry_count consecutive_errors calls.
  run_loop_start.
  intros q ce calls IHrate IHother. run_loop_step IHrate IHother.
  destruct (lt_dec q max_retries) as [Hq | Hq].
  2:{ simpl. intros [= <-]. right. repeat split. lia. }
  destruct (kickoff calls) as [result | e] eqn:E; [discriminate |].
  destruct (crew_is_rate_limit e) eqn:C.
  - destruct (lt_dec q (max_retries - 1)) as [Hq' | Hq'].
    + rewrite fst_after. intros H.
      destruct (IHrate e eq_refl C Hq' H) as [[-> _] | [_ [Hge _]]];
        [left; now split | lia].
    + simpl. intros [= <-]. left. now split.
  - destruct (lt_dec ce 3) as [Hce | Hce]; [| discriminate].
    rewrite fst_after. intros H.
    destruct (IHother e eq_refl C Hq Hce H) as [[-> _] | [_ [Hge _]]];
      [left; now split | lia].
Qed.

End RunFacts.

(** X3.  Whatever the wrapped call does, one run invokes it at most
    [MAX_QUOTA_RETRIES + (3 - consecutive_errors)] times, as invocations
    [0, 1, ..., k - 1]. *)
Theorem run_attempts_bounded (V : Type) (cls : GeminiConfig)
  (kickoff : nat -> attempt V) (consecutive_errors : nat) :
  exists k,
    invocations (snd (run cls kickoff consecutive_errors)) = seq 0 k /\
    k <= MAX_QUOTA_RETRIES cls + (3 - consecutive_errors).
Proof.
  destruct (run_loop_invocations cls kickoff 0 consecutive_errors 0)
    as [k [Hk Hle]].
  exists k. split; [exact Hk | lia].
Qed.

(** X4.  Whatever the wrapped call does, the rate-limit waits of one run
    are 60, 90, 120, ... seconds in this order, at most
    [MAX_QUOTA_RETRIES - 1] of them. *)
Theorem run_rate_limit_wait_schedule (V : Type) (cls : GeminiConfig)
  (kickoff : nat -> attempt V) (consecutive_errors : nat) :
  exists k,
    waits_at RateLimitWait (snd (run cls kickoff consecutive_errors))
    = map (fun i => inject_Z (60 + Z.of_nat i * 30)) (seq 0 k) /\
    k <= MAX_QUOTA_RETRIES cls - 1.
Proof.
  destruct (run_loop_rate_limit_waits cls kickoff 0 consecutive_errors 0)
    as [k [Hk Hle]].
  exists k. split; [exact Hk | lia].
Qed.

(** X5.  Whatever the wrapped call does, one run sleeps an error back-off
    at most [3 - consecutive_errors] times, each time for 20, 40 or 80
    seconds; with three consecutive errors on record it sleeps none. *)
Theorem run_error_backoff_bounded (V : Type) (cls : GeminiConfig)
  (kickoff : nat -> attempt V) (consecutive_errors : nat) :
  length (waits_at ErrorBackoff (snd (run cls kickoff consecutive_errors)))
  <= 3 - consecutive_errors /\
  Forall (fun d => In d [20; 40; 80]%Q)
    (waits_at ErrorBackoff (snd (run cls kickoff consecutive_errors))).
Proof. apply run_loop_backoff_waits. Qed.

(** X6.  The counter [consecutive_errors] after a run is 0 when the crew
    result is returned; otherwise it is its value before the run plus the
    number of rate-limit waits and of error back-offs of the run.  A
    failure of the last permitted attempt is not counted. *)
Theorem run_counter_accounting (V : Type) (cls : GeminiConfig)
  (kickoff : nat -> attempt V) (consecutive_errors : nat) :
  snd (fst (run cls kickoff consecutive_errors)) =
  counter_after consecutive_errors (run cls kickoff consecutive_errors).
Proof. apply run_loop_counter. Qed.

(** X7.  The only error responses [run] returns are "rate_limit_exceeded",
    which needs a budget of at least one attempt, and
    "max_retries_exceeded", which is returned only when
    [MAX_QUOTA_RETRIES] is 0 and then without any call or sleep. *)
Theorem run_error_responses (V : Type) (cls : GeminiConfig)
  (kickoff : nat -> attempt V) (consecutive_errors : nat)
  (error_type : string) :
  fst (fst (run cls kickoff consecutive_errors))
    = Returned (ErrorResponse error_type) ->
  (error_type = "rate_limit_exceeded" /\ 1 <= MAX_QUOTA_RETRIES cls) \/
  (error_type = "max_retries_exceeded" /\ MAX_QUOTA_RETRIES cls = 0 /\
   snd (run cls kickoff consecutive_errors) = []).
Proof.
  intros H.
  destruct (run_loop_error_response cls kickoff 0 consecutive_errors 0
              error_type H) as [[-> Hlt] | [-> [Hle Hnil]]].
  - left. split; [reflexivity | lia].
  - right. repeat split; [lia | exact Hnil].
Qed.

Lemma run_error_responses_witness :
  ("rate_limit_exceeded" = "rate_limit_exceeded"
   /\ 1 <= MAX_QUOTA_RETRIES default_config) \/
  ("rate_limit_exceeded" = "max_retries_exceeded"
   /\ MAX_QUOTA_RETRIES default_config = 0 /\
   snd (run default_config (always_fails (V:=string) "429") 0) = []).
Proof.
  apply (run_error_responses string default_config (always_fails "429") 0
           "rate_limit_exceeded").
  reflexivity.
Defined.

(** X8.  An exception that leaves [run] is never a quota error for
    [is_quota_error], and it leaves with at least three consecutive errors
    on record. *)
Theorem run_exception_is_no_quota_error (V : Type) (cls : GeminiConfig)
  (kickoff : nat -> attempt V) (consecutive_errors : nat) (x : exn)
  (after_ : nat) (tr : trace) :
  run cls kickoff consecutive_errors = ((Raised x, after_), tr) ->
  is_quota_error (exn_message x) = false /\ 3 <= after_.
Proof.
  intros H.
  pose proof (run_loop_raises cls kickoff 0 consecutive_errors 0 x after_)
    as Hr.
  fold (run cls kickoff consecutive_errors) in Hr. rewrite H in Hr.
  destruct (Hr eq_refl) as [e [i [-> [C [_ [Hge _]]]]]].
  split; [| assumption]. simpl.
  destruct (is_quota_error e) eqn:Q; [| reflexivity].
  apply is_quota_error_implies_agent, agent_implies_crew in Q. congruence.
Qed.

Lemma run_exception_is_no_quota_error_witness :
  is_quota_error (exn_message (Original "invalid api key")) = false /\
  3 <= 3.
Proof.
  apply (run_exception_is_no_quota_error string default_config
           (always_fails "invalid api key") 0 (Original "invalid api key") 3
           (snd (run default_config
                   (always_fails (V:=string) "invalid api key") 0))).
  reflexivity.
Defined.

(** X9.  Once a run has raised, the next run on the same instance re-raises
    a first failure that is not a rate-limit error at once, after a single
    invocation and no back-off. *)
Theorem run_after_raise_gives_up_at_once (V : Type) (cls : GeminiConfig)
  (first next : nat -> attempt V) (consecutive_errors : nat) (x : exn)
  (after_ : nat) (tr : trace) (e : string) :
  run cls first consecutive_errors = ((Raised x, after_), tr) ->
  next 0 = Fail e ->
  crew_is_rate_limit e = false ->
  run cls next after_ =
  ((Raised (Original e), after_),
   [pre_attempt_delay cls after_; Invoke 0]).
Proof.
  intros H E C.
  pose proof (run_loop_raises cls first 0 consecutive_errors 0 x after_)
    as Hr.
  fold (run cls first consecutive_errors) in Hr. rewrite H in Hr.
  destruct (Hr eq_refl) as [e' [i [_ [_ [_ [Hge _]]]]]].
  assert (Hmax : 0 < MAX_QUOTA_RETRIES cls).
  { destruct (MAX_QUOTA_RETRIES cls) eqn:Hn; [| lia].
    unfold run in H. rewrite run_loop_body in H.
    destruct (lt_dec 0 (MAX_QUOTA_RETRIES cls)); [lia | discriminate]. }
  unfold run.
  now apply (proj1 (run_loop_other_error cls next 0 after_ 0 e E C Hmax)).
Qed.

Lemma run_after_raise_gives_up_at_once_witness :
  run default_config (always_fails (V:=string) "disk full") 3 =
  ((Raised (Original "disk full"), 3),
   [pre_attempt_delay default_config 3; Invoke 0]).
Proof.
  apply (run_after_raise_gives_up_at_once string default_config
           (always_fails "invalid api key") (always_fails "disk full")
           0 (Original "invalid api key") 3
           (snd (run default_config
                   (always_fails (V:=string) "invalid api key") 0))
           "disk full").
  - reflexivity.
  - reflexivity.
  - reflexivity.
Defined.

(** ** Error responses and the test of main.py *)

Lemma fallback_response_reported (error_type : string) :
  reports_failure ("Game creation failed due to: " ++ error_type)
  = reports_failure error_type.
Proof. reflexivity. Qed.

Lemma create_error_response_reported (error_type : string) :
  reports_failure (_create_error_response error_type) = true <->
  error_type = "rate_limit_exceeded" \/ error_type = "quota_exceeded" \/
  error_type = "max_retries_exceeded" \/ reports_failure error_type = true.
Proof.
  unfold _create_error_response.
  destruct (String.eqb_spec error_type "rate_limit_exceeded") as [-> | N1].
  { split; [tauto | intros _; vm_compute; reflexivity]. }
  destruct (String.eqb_spec error_type "quota_exceeded") as [-> | N2].
  { split; [tauto | intros _; vm_compute; reflexivity]. }
  destruct (String.eqb_spec error_type "max_retries_exceeded") as [-> | N3].
  { split; [tauto | intros _; vm_compute; reflexivity]. }
  rewrite fallback_response_reported. tauto.
Qed.

(** X10.  Every error response that [run] returns contains the heading
    "# Game Creation Failed" by which [main.py] tells a failure from game
    code.  For an arbitrary error type the text built by
    [_create_error_response] contains it exactly when the type is one of the
    three known keys or contains the heading itself. *)
Theorem error_responses_are_reported (error_type : string) :
  (reports_failure (_create_error_response error_type) = true <->
   error_type = "rate_limit_exceeded" \/ error_type = "quota_exceeded" \/
   error_type = "max_retries_exceeded" \/
   reports_failure error_type = true)
  /\
  (forall (V : Type) (cls : GeminiConfig) (kickoff : nat -> attempt V)
          (consecutive_errors : nat),
     fst (fst (run cls kickoff consecutive_errors))
       = Returned (ErrorResponse error_type) ->
     reports_failure (_create_error_response error_type) = true).
Proof.
  split; [apply create_error_response_reported |].
  intros V cls kickoff ce H.
  apply create_error_response_reported.
  destruct (run_loop_error_response cls kickoff 0 ce 0 error_type H)
    as [[-> _] | [-> _]]; tauto.
Qed.

Lemma error_responses_are_reported_witness :
  reports_failure (_create_error_response "rate_limit_exceeded") = true.
Proof.
  apply (proj2 (error_responses_are_reported "rate_limit_exceeded")
           string default_config (always_fails "429") 0).
  reflexivity.
Defined.

(** ** Delays *)

Section MoreDelays.
Local Open Scope Q_scope.

Lemma py_max_spec (a b : Q) :
  (a < b /\ py_max a b = b) \/ (b <= a /\ py_max a b = a).
Proof.
  unfold py_max. destruct (b ?= a) eqn:E.
  - right. apply Qeq_alt in E. split; [rewrite E; apply Qle_refl | reflexivity].
  - right. apply Qlt_alt in E. split; [now apply Qlt_le_weak | reflexivity].
  - left. apply Qgt_alt in E. now split.
Qed.

Lemma get_adaptive_delay_ge_request_delay (cls : GeminiConfig) (n : nat) :
  0 < REQUEST_DELAY cls -> 1 <= EXPONENTIAL_BACKOFF_BASE cls ->
  REQUEST_DELAY cls <= MAX_BACKOFF_TIME cls ->
  REQUEST_DELAY cls <= get_adaptive_delay cls n.
Proof.
  intros Hd Hb Hm. unfold get_adaptive_delay.
  destruct (n =? 0)%nat; [apply Qle_refl |].
  apply py_min_glb; [| assumption].
  pose proof (py_pow_ge_1 (EXPONENTIAL_BACKOFF_BASE cls) (Nat.min n 5) Hb).
  nra.
Qed.

(** X11.  The delay that [_rate_limit_callback] sleeps between steps is
    never below 15 seconds nor below the adaptive delay; with
    [0 < REQUEST_DELAY <= MAX_BACKOFF_TIME] and a back-off base of at least
    1 it does not decrease when [consecutive_errors] grows, and it is at
    most 15 seconds or [MAX_BACKOFF_TIME], whichever is greater. *)
Theorem rate_limit_callback_delay (cls : GeminiConfig) (i j : nat) :
  0 < REQUEST_DELAY cls -> 1 <= EXPONENTIAL_BACKOFF_BASE cls ->
  REQUEST_DELAY cls <= MAX_BACKOFF_TIME cls ->
  (i <= j)%nat ->
  15 <= _rate_limit_callback cls i /\
  get_adaptive_delay cls i <= _rate_limit_callback cls i /\
  _rate_limit_callback cls i <= _rate_limit_callback cls j /\
  _rate_limit_callback cls j <= py_max 15 (MAX_BACKOFF_TIME cls).
Proof.
  intros Hd Hb Hm Hij. unfold _rate_limit_callback.
  pose proof (get_adaptive_delay_mono cls i j Hd Hb (or_intror Hm) Hij)
    as Hmono.
  pose proof (get_adaptive_delay_le_max cls j (or_intror Hm)) as Hmax.
  destruct (py_max_spec 15 (get_adaptive_delay cls i)) as [[? ->] | [? ->]];
    destruct (py_max_spec 15 (get_adaptive_delay cls j)) as [[? ->] | [? ->]];
    destruct (py_max_spec 15 (MAX_BACKOFF_TIME cls)) as [[? ->] | [? ->]];
    repeat split; lra.
Qed.

Lemma rate_limit_callback_delay_witness :
  15 <= _rate_limit_callback default_config 2 /\
  get_adaptive_delay default_config 2 <= _rate_limit_callback default_config 2 /\
  _rate_limit_callback default_config 2 <= _rate_limit_callback default_config 4 /\
  _rate_limit_callback default_config 4
  <= py_max 15 (MAX_BACKOFF_TIME default_config).
Proof.
  apply (rate_limit_callback_delay default_config 2 4).
  - reflexivity.
  - discriminate.
  - discriminate.
  - lia.
Defined.

(** X12.  With [0 < REQUEST_DELAY <= MAX_BACKOFF_TIME] and a back-off base
    of at least 1, the sleep at the head of every attempt of [run] lasts
    the adaptive delay for the current [consecutive_errors]: at least
    [REQUEST_DELAY] and at most [MAX_BACKOFF_TIME]. *)
Theorem pre_attempt_delay_is_adaptive (cls : GeminiConfig)
  (consecutive_errors : nat) :
  0 < REQUEST_DELAY cls -> 1 <= EXPONENTIAL_BACKOFF_BASE cls ->
  REQUEST_DELAY cls <= MAX_BACKOFF_TIME cls ->
  exists site d,
    pre_attempt_delay cls consecutive_errors = Sleep site d /\
    is_pre_attempt site = true /\
    d == get_adaptive_delay cls consecutive_errors /\
    REQUEST_DELAY cls <= d /\ d <= MAX_BACKOFF_TIME cls.
Proof.
  intros Hd Hb Hm.
  pose proof (get_adaptive_delay_ge_request_delay cls consecutive_errors
                Hd Hb Hm) as Hge.
  pose proof (get_adaptive_delay_le_max cls consecutive_errors
                (or_intror Hm)) as Hle.
  unfold pre_attempt_delay, py_gt.
  destruct (get_adaptive_delay cls consecutive_errors ?= REQUEST_DELAY cls)
    eqn:E.
  - apply Qeq_alt in E. exists RequestDelay, (REQUEST_DELAY cls).
    repeat split; trivial; try apply Qle_refl. now symmetry.
  - apply Qlt_alt in E. lra.
  - exists AdaptiveDelay, (get_adaptive_delay cls consecutive_errors).
    repeat split; trivial; reflexivity.
Qed.

Lemma pre_attempt_delay_is_adaptive_witness :
  exists site d,
    pre_attempt_delay default_config 4 = Sleep site d /\
    is_pre_attempt site = true /\
    d == get_adaptive_delay default_config 4 /\
    REQUEST_DELAY default_config <= d /\
    d <= MAX_BACKOFF_TIME default_config.
Proof.
  apply (pre_attempt_delay_is_adaptive default_config 4).
  - reflexivity.
  - discriminate.
  - discriminate.
Defined.

Lemma Forall_repeat {A : Type} (P : A -> Prop) (a : A) (n : nat) :
  P a -> Forall P (repeat a n).
Proof. intros H. induction n; simpl; constructor; assumption. Qed.

(** X13.  [handle_quota_exceeded] refuses exactly when the retry count has
    reached [MAX_QUOTA_RETRIES], and then it does not sleep.  Otherwise it
    sleeps in ticks of one second, as many as there are whole seconds in
    the exponential wait; with a cap that is not negative, never for
    longer than [MAX_BACKOFF_TIME]. *)
Theorem handle_quota_exceeded_sleeps (cls : GeminiConfig)
  (retry_count : nat) :
  0 <= MAX_BACKOFF_TIME cls ->
  let r := handle_quota_exceeded cls retry_count in
  (fst r = false <-> (MAX_QUOTA_RETRIES cls <= retry_count)%nat) /\
  (fst r = false -> snd r = []) /\
  Forall (fun d => d = 1) (snd r) /\
  inject_Z (Z.of_nat (length (snd r))) <= MAX_BACKOFF_TIME cls.
Proof.
  intros Hm r. subst r. unfold handle_quota_exceeded.
  destruct (Nat.leb_spec (MAX_QUOTA_RETRIES cls) retry_count) as [H | H];
    cbn [fst snd].
  - repeat split; trivial; try constructor; exact Hm.
  - split; [split; [discriminate | lia] |].
    split; [discriminate |].
    unfold _show_wait_progress.
    split; [now apply Forall_repeat |].
    rewrite repeat_length.
    pose proof (quota_wait_time_le_max cls retry_count) as Hle.
    destruct (Z_le_gt_dec 0 (Qfloor (quota_wait_time cls retry_count)))
      as [Hpos | Hneg].
    + rewrite Z2Nat.id by assumption.
      apply Qle_trans with (quota_wait_time cls retry_count);
        [apply Qfloor_le | assumption].
    + replace (Z.to_nat (Qfloor (quota_wait_time cls retry_count)))
        with 0%nat by lia.
      exact Hm.
Qed.

Lemma handle_quota_exceeded_sleeps_witness :
  let r := handle_quota_exceeded default_config 2 in
  (fst r = false <-> (MAX_QUOTA_RETRIES default_config <= 2)%nat) /\
  (fst r = false -> snd r = []) /\
  Forall (fun d => d = 1) (snd r) /\
  inject_Z (Z.of_nat (length (snd r))) <= MAX_BACKOFF_TIME default_config.
Proof.
  apply (handle_quota_exceeded_sleeps default_config 2).
  discriminate.
Defined.

End MoreDelays.

(** ** The events of [_generate], for every wrapped call *)

Lemma generate_loop_trace (V : Type) (cls : GeminiConfig)
  (call : nat -> attempt V) (remaining attempt_ : nat) :
  attempt_ + S remaining = MAX_QUOTA_RETRIES cls ->
  exists k,
    k <= remaining /\
    snd (generate_loop cls call (S remaining) attempt_) =
    (if 0 <? attempt_ then [Sleep RequestDelay (REQUEST_DELAY cls)] else [])
    ++ Invoke attempt_
       :: flat_map
            (fun i => [Sleep RateLimitWait (inject_Z (60 + Z.of_nat i * 30));
                       Sleep RequestDelay (REQUEST_DELAY cls);
                       Invoke (S i)])
            (seq attempt_ k).
Proof.
  revert attempt_. induction remaining as [|remaining IH]; intros attempt_ Hsum.
  - exists 0. split; [lia |]. cbn [generate_loop].
    rewrite snd_after.
    destruct (call attempt_) as [v | e]; [now rewrite <- app_assoc |].
    destruct (agent_is_rate_limit e); [| now rewrite <- app_assoc].
    replace (attempt_ <? MAX_QUOTA_RETRIES cls - 1) with false
      by (symmetry; apply Nat.ltb_ge; lia).
    now rewrite <- app_assoc.
  - remember (S remaining) as r eqn:Hr. cbn [generate_loop].
    rewrite snd_after.
    destruct (call attempt_) as [v | e];
      [exists 0; split; [lia | now rewrite <- app_assoc] |].
    destruct (agent_is_rate_limit e);
      [| exists 0; split; [lia | now rewrite <- app_assoc]].
    replace (attempt_ <? MAX_QUOTA_RETRIES cls - 1) with true
      by (symmetry; apply Nat.ltb_lt; lia).
    subst r. destruct (IH (S attempt_) ltac:(lia)) as [k [Hk Htr]].
    exists (S k). split; [lia |].
    rewrite snd_after, Htr, <- app_assoc. reflexivity.
Qed.

(** X14.  With a budget of at least one attempt and whatever the wrapped
    call does, the events of [_generate] are: the first invocation, with no
    sleep before it, then for each retry the rate-limit wait
    [60 + 30 * i], the request delay and the next invocation, for fewer
    than [MAX_QUOTA_RETRIES] retries. *)
Theorem generate_trace_shape (V : Type) (cls : GeminiConfig)
  (call : nat -> attempt V) :
  1 <= MAX_QUOTA_RETRIES cls ->
  exists k,
    k < MAX_QUOTA_RETRIES cls /\
    snd (_generate cls call) =
    (Invoke 0
     :: flat_map
          (fun i => [Sleep RateLimitWait (inject_Z (60 + Z.of_nat i * 30));
                     Sleep RequestDelay (REQUEST_DELAY cls);
                     Invoke (S i)])
          (seq 0 k)).
Proof.
  intros Hmax. unfold _generate.
  destruct (MAX_QUOTA_RETRIES cls) as [|n] eqn:Hn; [lia |].
  destruct (generate_loop_trace V cls call n 0) as [k [Hk Htr]];
    [now rewrite Hn |].
  exists k. split; [lia | exact Htr].
Qed.

Lemma generate_trace_shape_witness :
  exists k,
    k < MAX_QUOTA_RETRIES default_config /\
    snd (_generate default_config
           (fails_then_succeeds 1 "quota exceeded" "game")) =
    (Invoke 0
     :: flat_map
          (fun i => [Sleep RateLimitWait (inject_Z (60 + Z.of_nat i * 30));
                     Sleep RequestDelay (REQUEST_DELAY default_config);
                     Invoke (S i)])
          (seq 0 k)).
Proof.
  apply (generate_trace_shape string default_config
           (fails_then_succeeds 1 "quota exceeded" "game")).
  simpl. lia.
Defined.

(** ** tools.py *)

Module ToolsFacts.
Import Tools.

Lemma contains_wrapping (pattern code code' : string) :
  PyStr.substring_of code code' ->
  (pattern in_ code) = true -> (pattern in_ code') = true.
Proof.
  intros Hsub H. apply PyStrFacts.contains_spec.
  apply substring_of_trans with code; [| assumption].
  now apply PyStrFacts.contains_spec.
Qed.

Ltac destruct_scans code :=
  repeat match goal with
         | |- context [PyStr.contains ?p code] =>
             destruct (PyStr.contains p code)
         end.

Lemma security_issues_nil_iff (code : string) :
  security_issues code = [] <->
  existsb (fun pattern => pattern in_ code) scanned_patterns = false.
Proof.
  unfold security_issues, scanned_patterns. simpl.
  destruct_scans code; simpl; split; intros H;
    solve [reflexivity | discriminate].
Qed.

(** X15.  [scan_security_issues] answers "No obvious security issues
    detected." exactly when the code contains none of "eval(", "exec(",
    "input(", "__import__(", "open(", "subprocess" and "os.system". *)
Theorem scan_clean_iff (code : string) :
  scan_security_issues code = "No obvious security issues detected." <->
  forall pattern,
    In pattern scanned_patterns -> ~ PyStr.substring_of pattern code.
Proof.
  assert (Hnone :
    existsb (fun pattern => pattern in_ code) scanned_patterns = false <->
    forall pattern,
      In pattern scanned_patterns -> ~ PyStr.substring_of pattern code).
  { split.
    - intros H pattern Hin Hsub.
      assert (Ht : existsb (fun p => p in_ code) scanned_patterns = true)
        by (apply existsb_contains_spec; now exists pattern).
      congruence.
    - intros H.
      destruct (existsb (fun p => p in_ code) scanned_patterns) eqn:E;
        [| reflexivity].
      apply existsb_contains_spec in E. destruct E as [p [Hin Hsub]].
      now contradiction (H p Hin). }
  rewrite <- Hnone, <- security_issues_nil_iff.
  unfold scan_security_issues.
  destruct (security_issues code) as [|issue issues].
  - split; reflexivity.
  - split; discriminate.
Qed.

Lemma scan_clean_iff_witness :
  scan_security_issues "import pygame"
  = "No obvious security issues detected.".
Proof.
  apply (proj2 (scan_clean_iff "import pygame")).
  intros pattern Hin Hsub. apply PyStrFacts.contains_spec in Hsub.
  simpl in Hin.
  repeat (destruct Hin as [<- | Hin]; [discriminate Hsub |]).
  contradiction.
Defined.

(** X16.  Scanning a text that contains a piece of code reports every
    issue that scanning the piece alone reports. *)
Theorem scan_is_monotone (code code' issue : string) :
  PyStr.substring_of code code' ->
  In issue (security_issues code) -> In issue (security_issues code').
Proof.
  intros Hsub. unfold security_issues. rewrite !in_app_iff.
  intros [H | [H | H]].
  - left. apply in_flat_map in H. destruct H as [func [Hfunc H]].
    apply in_flat_map. exists func. split; [assumption |].
    destruct ((func ++ "(")%string in_ code) eqn:E; [| contradiction].
    now rewrite (contains_wrapping _ code code' Hsub E).
  - right; left.
    destruct (("subprocess" in_ code) || ("os.system" in_ code)) eqn:E;
      [| contradiction].
    apply orb_true_iff in E.
    destruct E as [E | E];
      rewrite (contains_wrapping _ code code' Hsub E);
      [| rewrite orb_true_r]; exact H.
  - right; right.
    destruct (("open(" in_ code) && (("w" in_ code) || ("a" in_ code)))
      eqn:E; [| contradiction].
    apply andb_true_iff in E. destruct E as [Eo E].
    rewrite (contains_wrapping _ code code' Hsub Eo).
    apply orb_true_iff in E.
    destruct E as [E | E];
      rewrite (contains_wrapping _ code code' Hsub E);
      [| rewrite orb_true_r]; exact H.
Qed.

Lemma scan_is_monotone_witness :
  In "Shell command execution detected"
     (security_issues "import pygame; os.system('ls')").
Proof.
  apply (scan_is_monotone "os.system" "import pygame; os.system('ls')").
  - exists "import pygame; ", "('ls')". reflexivity.
  - vm_compute. auto.
Defined.

Lemma file_write_in (code : string) :
  In "File write operations detected" (security_issues code) <->
  (("open(" in_ code) && (("w" in_ code) || ("a" in_ code))) = true.
Proof.
  unfold security_issues. rewrite !in_app_iff, in_flat_map. split.
  - intros [[func [_ H]] | [H | H]].
    + destruct ((func ++ "(")%string in_ code); [| contradiction].
      destruct H as [H | []]. discriminate H.
    + destruct (("subprocess" in_ code) || ("os.system" in_ code));
        [| contradiction].
      destruct H as [H | []]. discriminate H.
    + destruct (("open(" in_ code) && (("w" in_ code) || ("a" in_ code)));
        [reflexivity | contradiction].
  - intros E. right; right. rewrite E. now left.
Qed.

(** X17.  "File write operations detected" is reported exactly when the
    code contains "open(" and, anywhere, a letter [w] or [a]; it never
    comes without the report on the function [open]. *)
Theorem file_write_report (code : string) :
  (In "File write operations detected" (security_issues code) <->
   PyStr.substring_of "open(" code /\
   (PyStr.substring_of "w" code \/ PyStr.substring_of "a" code))
  /\
  (In "File write operations detected" (security_issues code) ->
   In "Potentially dangerous function 'open' found"
      (security_issues code)).
Proof.
  rewrite file_write_in, andb_true_iff, orb_true_iff.
  rewrite !PyStrFacts.contains_spec. split; [reflexivity |].
  intros [Hopen _]. apply PyStrFacts.contains_spec in Hopen.
  unfold security_issues. apply in_or_app. left.
  apply in_flat_map. exists "open". split; [simpl; tauto |].
  cbn [append]. rewrite Hopen. now left.
Qed.

Lemma file_write_report_witness :
  In "Potentially dangerous function 'open' found"
     (security_issues "f = open('data.txt')").
Proof.
  apply (proj2 (file_write_report "f = open('data.txt')")).
  vm_compute. auto.
Defined.

End ToolsFacts.

(** ** agents.py: [get_agent_with_fallback] *)

Lemma string_app_assoc (a b c : string) :
  ((a ++ b) ++ c)%string = (a ++ b ++ c)%string.
Proof. induction a as [|ch a IH]; simpl; [reflexivity | now rewrite IH]. Qed.

Lemma string_app_nil_r (a : string) : (a ++ "")%string = a.
Proof. induction a as [|ch a IH]; simpl; [reflexivity | now rewrite IH]. Qed.

Lemma substring_of_middle (pre s post : string) :
  PyStr.substring_of s (pre ++ s ++ post)%string.
Proof. now exists pre, post. Qed.

(** X18.  For an agent type other than "senior", "qa" and "chief",
    [get_agent_with_fallback] does not raise the [ValueError] it builds: it
    returns the fallback agent whenever the fallback LLM and agent can be
    built, and otherwise raises an exception whose text contains
    "Unknown agent type: " followed by the type. *)
Theorem unknown_agent_type_falls_back
  (agent_error : agent_role -> option string) (llm_error : option string)
  (agent_type : string) :
  agent_type <> "senior" -> agent_type <> "qa" -> agent_type <> "chief" ->
  match get_agent_with_fallback agent_error llm_error agent_type with
  | inl agent =>
      agent = FallbackGameDeveloper /\ llm_error = None /\
      agent_error FallbackGameDeveloper = None
  | inr message =>
      (llm_error <> None \/ agent_error FallbackGameDeveloper <> None) /\
      PyStr.substring_of ("Unknown agent type: " ++ agent_type) message
  end.
Proof.
  intros N1 N2 N3. unfold get_agent_with_fallback.
  apply String.eqb_neq in N1, N2, N3. rewrite N1, N2, N3.
  destruct llm_error as [fallback_error |].
  - split; [left; discriminate |].
    exists ("Could not create " ++ agent_type ++ " agent: ")%string,
           (", Fallback also failed: " ++ fallback_error)%string.
    now rewrite !string_app_assoc.
  - destruct (agent_error FallbackGameDeveloper) as [fallback_error |] eqn:E.
    + split; [right; discriminate |].
      exists ("Could not create " ++ agent_type ++ " agent: ")%string,
             (", Fallback also failed: " ++ fallback_error)%string.
      now rewrite !string_app_assoc.
    + repeat split.
Qed.

Lemma unknown_agent_type_falls_back_witness :
  match get_agent_with_fallback (fun _ => None) None "Senior" with
  | inl agent =>
      agent = FallbackGameDeveloper /\ @None string = None /\
      (fun _ : agent_role => @None string) FallbackGameDeveloper = None
  | inr message =>
      (@None string <> None \/
       (fun _ : agent_role => @None string) FallbackGameDeveloper <> None) /\
      PyStr.substring_of ("Unknown agent type: " ++ "Senior") message
  end.
Proof.
  apply (unknown_agent_type_falls_back (fun _ => None) None "Senior");
    discriminate.
Defined.

(** X19.  Every exception that [get_agent_with_fallback] raises has the
    text "Could not create T agent: E, Fallback also failed: F" for the
    type [T], a first error [E] and a fallback error [F]; if [E] or [F] is a
    quota error for [is_quota_error], so is the whole text. *)
Theorem fallback_failure_message
  (agent_error : agent_role -> option string) (llm_error : option string)
  (agent_type message : string) :
  get_agent_with_fallback agent_error llm_error agent_type = inr message ->
  exists e fallback_error,
    message = ("Could not create " ++ agent_type ++ " agent: " ++ e
               ++ ", Fallback also failed: " ++ fallback_error)%string /\
    (is_quota_error e = true \/ is_quota_error fallback_error = true ->
     is_quota_error message = true).
Proof.
  unfold get_agent_with_fallback.
  set (primary :=
         if String.eqb agent_type "senior" then _
         else if String.eqb agent_type "qa" then _
         else if String.eqb agent_type "chief" then _
         else _).
  destruct primary as [agent | e]; [discriminate |].
  set (fallback := match llm_error with Some _ => _ | None => _ end).
  destruct fallback as [agent | fallback_error]; [discriminate |].
  intros [= <-]. exists e, fallback_error. split; [reflexivity |].
  intros [H | H].
  - apply is_quota_error_wrapping with e; [| assumption].
    exists ("Could not create " ++ agent_type ++ " agent: ")%string,
           (", Fallback also failed: " ++ fallback_error)%string.
    now rewrite !string_app_assoc.
  - apply is_quota_error_wrapping with fallback_error; [| assumption].
    exists ("Could not create " ++ agent_type ++ " agent: " ++ e
            ++ ", Fallback also failed: ")%string, ""%string.
    now rewrite string_app_nil_r, !string_app_assoc.
Qed.

Lemma fallback_failure_message_witness :
  exists e fallback_error,
    "Could not create qa agent: 429 Too Many Requests, Fallback also failed: no key"
    = ("Could not create " ++ "qa" ++ " agent: " ++ e
       ++ ", Fallback also failed: " ++ fallback_error)%string /\
    (is_quota_error e = true \/ is_quota_error fallback_error = true ->
     is_quota_error
       "Could not create qa agent: 429 Too Many Requests, Fallback also failed: no key"
     = true).
Proof.
  apply (fallback_failure_message
           (fun _ => Some "429 Too Many Requests") (Some "no key") "qa").
  reflexivity.
Defined.

(** ** main.py: the command line *)

Module MainFacts.
Import Main.

Lemma lower_ascii_t (c : ascii) :
  PyStr.lower_ascii c = "t"%char -> c = "t"%char \/ c = "T"%char.
Proof.
  destruct c as [[] [] [] [] [] [] [] []]; vm_compute; intros H;
    solve [discriminate | now left | now right].
Qed.

Lemma lower_ascii_n (c : ascii) :
  PyStr.lower_ascii c = "n"%char -> c = "n"%char \/ c = "N"%char.
Proof.
  destruct c as [[] [] [] [] [] [] [] []]; vm_compute; intros H;
    solve [discriminate | now left | now right].
Qed.

Lemma int_of_train (s : string) :
  PyStr.lower s = "train" -> int s = None.
Proof.
  destruct s as [|c1 [|c2 [|c3 [|c4 [|c5 [|c6 s]]]]]]; try discriminate.
  simpl. intros [= H1 _ _ _ H5].
  destruct (lower_ascii_t c1 H1) as [-> | ->];
    destruct (lower_ascii_n c5 H5) as [-> | ->]; reflexivity.
Qed.

(** X20.  Started from the command line, the [train] command never gets as
    far as asking for confirmation, whatever the other arguments are: it
    prints the usage line or reports an invalid number of iterations,
    because it reads the number from [sys.argv[1]], the command word. *)
Theorem command_line_train_never_starts (argv : list string)
  (start : train_start) :
  main argv = Train start -> start = Usage \/ start = InvalidIterations.
Proof.
  unfold main. destruct (1 <? length argv); [| discriminate].
  destruct (String.eqb_spec (PyStr.lower (nth 1 argv "")) "train")
    as [Hcmd | Hcmd].
  - intros [= <-]. unfold train.
    destruct (length argv <? 3); [now left |].
    rewrite (int_of_train _ Hcmd). now right.
  - destruct (String.eqb _ "monitor"); [discriminate |].
    destruct (String.eqb _ "help"); discriminate.
Qed.

Lemma command_line_train_never_starts_witness :
  InvalidIterations = Usage \/ InvalidIterations = InvalidIterations.
Proof.
  apply (command_line_train_never_starts
           ["main.py"; "train"; "5"; "results.json"] InvalidIterations).
  reflexivity.
Defined.

Lemma rstrip_digits (d : Decimal.uint) :
  rstrip (NilEmpty.string_of_uint d) = NilEmpty.string_of_uint d.
Proof.
  induction d as [|d IH|d IH|d IH|d IH|d IH|d IH|d IH|d IH|d IH|d IH];
    simpl; [reflexivity | ..]; rewrite IH;
    destruct (NilEmpty.string_of_uint d); reflexivity.
Qed.

Lemma int_digits_of_uint (d : Decimal.uint) (acc : nat) :
  int_digits (Z.of_nat acc) false (NilEmpty.string_of_uint d)
  = Some (Z.of_nat (Nat.of_uint_acc d acc)).
Proof.
  revert acc.
  induction d as [|d IH|d IH|d IH|d IH|d IH|d IH|d IH|d IH|d IH|d IH];
    intros acc; [reflexivity | ..];
    cbn [NilEmpty.string_of_uint int_digits Nat.of_uint_acc];
    match goal with
    | |- context [isdigit ?c] =>
        replace (isdigit c) with true by reflexivity
    end;
    cbv iota; rewrite <- IH; f_equal;
    rewrite !Nat.tail_mul_spec; vm_compute (nat_of_ascii _ - 48)%nat; lia.
Qed.

Lemma int_of_digits (d : Decimal.uint) :
  d <> Decimal.Nil ->
  int (NilEmpty.string_of_uint d)
  = int_digits 0 false (NilEmpty.string_of_uint d).
Proof.
  intros Hnil. unfold int, strip.
  replace (lstrip (NilEmpty.string_of_uint d))
    with (NilEmpty.string_of_uint d) by (destruct d; reflexivity).
  rewrite rstrip_digits.
  destruct d; [contradiction | ..]; reflexivity.
Qed.

Lemma int_of_str_nat (n : nat) : int (str_nat n) = Some (Z.of_nat n).
Proof.
  unfold str_nat.
  assert (Hnil : Nat.to_uint n <> Decimal.Nil).
  { intros H. pose proof (Unsigned.of_to n) as Hn. rewrite H in Hn.
    destruct n; [discriminate H | discriminate Hn]. }
  rewrite (int_of_digits _ Hnil).
  rewrite <- (Unsigned.of_to n) at 2. unfold Nat.of_uint.
  apply (int_digits_of_uint (Nat.to_uint n) 0).
Qed.

(** X21.  Called with the number of iterations in [sys.argv[1]], written
    as [str] writes a non-negative integer, and a file name in
    [sys.argv[2]], [train] reads that number and that name back and
    estimates six API calls per iteration. *)
Theorem train_reads_iteration_count (program filename : string) (n : nat)
  (more : list string) :
  train (program :: str_nat n :: filename :: more)
  = AskConfirmation (Z.of_nat n) filename (Z.of_nat n * 6).
Proof.
  unfold train. cbn [length nth Nat.ltb Nat.leb].
  now rewrite int_of_str_nat.
Qed.

End MainFacts.

(** ** pacman.py *)

Module PacmanFacts.
Import Pacman.
Local Open Scope Z_scope.

Lemma open_cell_bounds (x y : Z) :
  open_cell x y = true ->
  0 <= x < columns /\ 0 <= y < rows /\ cell x y = 0.
Proof.
  unfold open_cell. rewrite !andb_true_iff.
  rewrite !Z.leb_le, !Z.ltb_lt, Z.eqb_eq. tauto.
Qed.

Lemma open_cell_below (x y : Z) : rows <= y -> open_cell x y = false.
Proof.
  intros H. destruct (open_cell x y) eqn:E; [| reflexivity].
  apply open_cell_bounds in E. lia.
Qed.

Lemma pacman_move_open (p : PacMan.t) (dx dy : Z) :
  open_cell (PacMan.x p) (PacMan.y p) = true ->
  open_cell (PacMan.x (PacMan.move p dx dy)) (PacMan.y (PacMan.move p dx dy))
  = true /\
  PacMan.score (PacMan.move p dx dy) = PacMan.score p /\
  PacMan.lives (PacMan.move p dx dy) = PacMan.lives p.
Proof.
  intros H. unfold PacMan.move.
  destruct (open_cell (PacMan.x p + dx) (PacMan.y p + dy)) eqn:E;
    simpl; auto.
Qed.

Lemma handle_keys_open (i : frame_input) (p : PacMan.t) :
  open_cell (PacMan.x p) (PacMan.y p) = true ->
  open_cell (PacMan.x (handle_keys i p)) (PacMan.y (handle_keys i p)) = true
  /\ PacMan.score (handle_keys i p) = PacMan.score p
  /\ PacMan.lives (handle_keys i p) = PacMan.lives p.
Proof.
  intros H. unfold handle_keys.
  destruct (K_LEFT i), (K_RIGHT i), (K_UP i), (K_DOWN i);
    repeat match goal with
           | |- context [PacMan.move ?q ?dx ?dy] =>
               let Hm := fresh "Hm" in
               assert (Hm := pacman_move_open q dx dy);
               destruct Hm as [? [? ?]];
               [solve [assumption] |];
               generalize dependent (PacMan.move q dx dy); intros
           end;
    repeat split; congruence.
Qed.

Lemma ghost_move_outside (ghost : Ghost.t) (p : PacMan.t) :
  outside ghost -> Ghost.move ghost p = ghost.
Proof.
  unfold outside, Ghost.move, Ghost.move_safe. intros H.
  destruct (negb (Ghost.frightened ghost)); [| reflexivity].
  rewrite open_cell_below; [reflexivity |].
  destruct (Ghost.y ghost <? PacMan.y p);
    [| destruct (PacMan.y p <? Ghost.y ghost)]; lia.
Qed.

Lemma ghosts_move_outside (gs : list Ghost.t) (p : PacMan.t) :
  Forall outside gs -> map (fun ghost => Ghost.move ghost p) gs = gs.
Proof.
  induction 1 as [|ghost gs Hg Hgs IH]; simpl; [reflexivity |].
  now rewrite IH, ghost_move_outside.
Qed.

Lemma collisions_outside (gs : list Ghost.t) (p : PacMan.t) (r : bool) :
  open_cell (PacMan.x p) (PacMan.y p) = true ->
  Forall outside gs -> collisions gs p r = (p, r).
Proof.
  intros Hp. induction 1 as [|ghost gs Hg Hgs IH]; simpl; [reflexivity |].
  apply open_cell_bounds in Hp. unfold outside in Hg.
  replace (PacMan.y p =? Ghost.y ghost) with false
    by (symmetry; apply Z.eqb_neq; lia).
  rewrite andb_false_r. exact IH.
Qed.

Lemma eat_spec (px py : Z) (items : list (Z * Z)) :
  0 <= snd (eat px py items) /\
  Z.of_nat (length (fst (eat px py items))) + snd (eat px py items)
  = Z.of_nat (length items) /\
  ~ In (px, py) (fst (eat px py items)).
Proof.
  induction items as [|[pellet_x pellet_y] items IH]; cbn [eat].
  - cbn [fst snd length In]. repeat split; [lia | tauto].
  - destruct (eat px py items) as [rest eaten]. cbn [fst snd] in IH.
    destruct IH as [Hpos [Hlen Hnot]].
    destruct ((px =? pellet_x) && (py =? pellet_y)) eqn:E;
      cbn [fst snd length In].
    + repeat split; [lia | lia | assumption].
    + repeat split; [lia | lia |].
      intros [[= <- <-] | Hin]; [| contradiction].
      now rewrite !Z.eqb_refl in E.
Qed.

Lemma eat_power_walls (p : PacMan.t) (items : list (Z * Z))
  (gs : list Ghost.t) (clock_ : list Z) :
  open_cell (PacMan.x p) (PacMan.y p) = true ->
  Forall (fun item => open_cell (fst item) (snd item) = false) items ->
  eat_power p items gs clock_ = (items, p, gs, clock_).
Proof.
  intros Hp. induction 1 as [|[pellet_x pellet_y] items Hw Hws IH]; simpl;
    [reflexivity |].
  rewrite IH. simpl in Hw.
  destruct ((PacMan.x p =? pellet_x) && (PacMan.y p =? pellet_y)) eqn:E;
    [| reflexivity].
  apply andb_true_iff in E. destruct E as [Ex Ey].
  apply Z.eqb_eq in Ex, Ey. congruence.
Qed.

Lemma warp_open (p : PacMan.t) :
  open_cell (PacMan.x p) (PacMan.y p) = true -> warp p = p.
Proof.
  intros Hp. apply open_cell_bounds in Hp. unfold warp.
  replace (PacMan.x p =? -1) with false by (symmetry; apply Z.eqb_neq; lia).
  replace (PacMan.x p =? columns) with false
    by (symmetry; apply Z.eqb_neq; lia).
  reflexivity.
Qed.

Lemma start_ghosts_outside (clock0 : list Z) :
  Forall outside (ghosts (start clock0)).
Proof. repeat constructor. Qed.

Lemma start_power_walls (clock0 : list Z) :
  Forall (fun item => open_cell (fst item) (snd item) = false)
    (power_pellets (start clock0)).
Proof. repeat constructor. Qed.

Lemma invariant_start (clock0 : list Z) : invariant clock0 (start clock0).
Proof. split; reflexivity. Qed.

Lemma frame_spec (clock0 : list Z) (i : frame_input) (g : game) :
  invariant clock0 g ->
  invariant clock0 (frame i g) /\
  running (frame i g) = (if quit i then false else running g) /\
  ~ In (PacMan.x (pacman (frame i g)), PacMan.y (pacman (frame i g)))
       (pellets (frame i g)).
Proof.
  intros [Hopen Hghosts Hpower Hclock Hlives Hscore Hscore0].
  destruct (handle_keys_open i (pacman g) Hopen) as [Hopen1 [Hscore1 Hlives1]].
  unfold frame.
  rewrite Hghosts, ghosts_move_outside by apply start_ghosts_outside.
  rewrite collisions_outside by (trivial; apply start_ghosts_outside).
  pose proof (eat_spec (PacMan.x (handle_keys i (pacman g)))
                (PacMan.y (handle_keys i (pacman g))) (pellets g))
    as [Hpos [Hlen Hnot]].
  destruct (eat _ _ (pellets g)) as [pellets' eaten]. simpl in Hpos, Hlen, Hnot.
  rewrite Hpower, eat_power_walls
    by (trivial; apply start_power_walls).
  rewrite warp_open by assumption.
  repeat split;
    cbn [pacman ghosts pellets power_pellets running clock
         PacMan.x PacMan.y PacMan.score PacMan.lives];
    trivial; try congruence; lia.
Qed.

Lemma play_invariant (clock0 : list Z) (inputs : list frame_input)
  (g : game) :
  invariant clock0 g -> invariant clock0 (play inputs g).
Proof.
  revert g. induction inputs as [|i inputs IH]; intros g Hg; simpl;
    [assumption |].
  destruct (running g); [| assumption].
  apply IH. now apply frame_spec.
Qed.

Lemma play_stops_on_quit (clock0 : list Z) (inputs : list frame_input)
  (g : game) :
  invariant clock0 g -> running g = true ->
  running (play inputs g) = false ->
  exists i, In i inputs /\ quit i = true.
Proof.
  revert g. induction inputs as [|i inputs IH]; intros g Hg Hrun Hstop;
    simpl in Hstop; [congruence |].
  rewrite Hrun in Hstop.
  destruct (frame_spec clock0 i g Hg) as [Hinv [Hr _]].
  destruct (quit i) eqn:Q.
  - exists i. split; [now left | assumption].
  - rewrite Hrun in Hr.
    destruct (IH (frame i g) Hinv Hr Hstop) as [j [Hin Hq]].
    exists j. split; [now right | assumption].
Qed.

Lemma play_eats_pellet (clock0 : list Z) (inputs : list frame_input)
  (g : game) :
  invariant clock0 g ->
  ~ In (PacMan.x (pacman g), PacMan.y (pacman g)) (pellets g) ->
  ~ In (PacMan.x (pacman (play inputs g)), PacMan.y (pacman (play inputs g)))
       (pellets (play inputs g)).
Proof.
  revert g. induction inputs as [|i inputs IH]; intros g Hg Hnot; simpl;
    [assumption |].
  destruct (running g); [| assumption].
  destruct (frame_spec clock0 i g Hg) as [Hinv [_ Hn]].
  now apply IH.
Qed.

(** X22.  However the keys are pressed and for however many frames,
    Pac-Man stands on a cell of the maze that holds 0, inside the bounds;
    the warp tunnels are never taken. *)
Theorem pacman_stays_in_corridors (clock0 : list Z)
  (inputs : list frame_input) :
  let p := pacman (play inputs (start clock0)) in
  0 <= PacMan.x p < 20 /\ 0 <= PacMan.y p < 9 /\
  cell (PacMan.x p) (PacMan.y p) = 0.
Proof.
  intros p. subst p.
  pose proof (play_invariant clock0 inputs _ (invariant_start clock0))
    as [Hopen _ _ _ _ _ _].
  apply open_cell_bounds in Hopen. exact Hopen.
Qed.

(** X23.  The four ghosts start below the nine rows of the maze and never
    move, are never frightened, and the clock is never read: after any
    frames they are as at the start. *)
Theorem ghosts_never_move (clock0 : list Z) (inputs : list frame_input) :
  ghosts (play inputs (start clock0)) =
  [ Ghost.init RED 10 10; Ghost.init PINK 10 12;
    Ghost.init CYAN 12 10; Ghost.init ORANGE 12 12 ] /\
  clock (play inputs (start clock0)) = clock0.
Proof.
  pose proof (play_invariant clock0 inputs _ (invariant_start clock0))
    as [_ Hghosts _ Hclock _ _ _].
  split; assumption.
Qed.

(** X24.  Pac-Man never loses a life, and the game loop ends only on a
    QUIT event. *)
Theorem game_ends_only_on_quit (clock0 : list Z)
  (inputs : list frame_input) :
  PacMan.lives (pacman (play inputs (start clock0))) = 3 /\
  (running (play inputs (start clock0)) = false ->
   exists i, In i inputs /\ quit i = true).
Proof.
  pose proof (play_invariant clock0 inputs _ (invariant_start clock0))
    as [_ _ _ _ Hlives _ _].
  split; [assumption |].
  apply (play_stops_on_quit clock0); [apply invariant_start | reflexivity].
Qed.

Lemma game_ends_only_on_quit_witness :
  exists i,
    In i [ {| quit := true; K_LEFT := false; K_RIGHT := true;
              K_UP := false; K_DOWN := false |} ] /\
    quit i = true.
Proof.
  apply (proj2 (game_ends_only_on_quit []
                  [ {| quit := true; K_LEFT := false; K_RIGHT := true;
                       K_UP := false; K_DOWN := false |} ])).
  reflexivity.
Defined.

(** X25.  The score is ten times the number of pellets eaten: the score
    plus ten times the pellets left is always 830, for the 83 pellets of
    the maze.  The four power pellets lie on wall cells and are never
    eaten. *)
Theorem score_counts_pellets (clock0 : list Z) (inputs : list frame_input) :
  let g := play inputs (start clock0) in
  PacMan.score (pacman g) + 10 * Z.of_nat (length (pellets g)) = 830 /\
  0 <= PacMan.score (pacman g) <= 830 /\
  power_pellets g = [(0, 0); (0, 8); (19, 0); (19, 8)].
Proof.
  intros g. subst g.
  pose proof (play_invariant clock0 inputs _ (invariant_start clock0))
    as [_ _ Hpower _ _ Hscore Hscore0].
  change (10 * Z.of_nat (length (pellets (start clock0)))) with 830
    in Hscore.
  split; [assumption |]. split; [lia | assumption].
Qed.

(** X26.  After the first frame, no pellet is ever left on the cell where
    Pac-Man stands. *)
Theorem no_pellet_under_pacman (clock0 : list Z) (i : frame_input)
  (inputs : list frame_input) :
  let g := play (i :: inputs) (start clock0) in
  ~ In (PacMan.x (pacman g), PacMan.y (pacman g)) (pellets g).
Proof.
  intros g. subst g. cbn [play]. change (running (start clock0)) with true.
  cbv iota.
  destruct (frame_spec clock0 i _ (invariant_start clock0)) as [Hinv [_ Hn]].
  now apply (play_eats_pellet clock0).
Qed.

Lemma no_pellet_under_pacman_witness :
  let g :=
    play [ {| quit := false; K_LEFT := false; K_RIGHT := true;
              K_UP := false; K_DOWN := true |} ] (start []) in
  ~ In (PacMan.x (pacman g), PacMan.y (pacman g)) (pellets g).
Proof.
  apply (no_pellet_under_pacman []
           {| quit := false; K_LEFT := false; K_RIGHT := true;
              K_UP := false; K_DOWN := true |} []).
Defined.

End PacmanFacts.

(** ** main.py: the custom prompt *)

Module PromptFacts.
Import Main.

Lemma ends_with_blank_snoc (game_prompt : list string) (line : string) :
  ends_with_blank (game_prompt ++ [line]) = String.eqb line "".
Proof.
  unfold ends_with_blank. rewrite last_last.
  destruct game_prompt; reflexivity.
Qed.

Lemma awaits_text_step (game_prompt : list string) (line : string)
  (lines : list string) :
  no_blank_pair (line :: lines) = true ->
  awaits_text game_prompt (line :: lines) ->
  (String.eqb line "" && ends_with_blank game_prompt) = false /\
  no_blank_pair lines = true /\
  awaits_text (game_prompt ++ [line]) lines.
Proof.
  cbn [no_blank_pair]. rewrite andb_true_iff, negb_true_iff.
  intros [Hline Hrest] Hwait. unfold awaits_text in *. repeat split.
  - destruct (ends_with_blank game_prompt); [| apply andb_false_r].
    apply String.eqb_neq in Hwait; [| reflexivity]. now rewrite Hwait.
  - assumption.
  - rewrite ends_with_blank_snoc. intros E. rewrite E in Hline.
    destruct lines as [|next lines]; [discriminate |].
    now apply String.eqb_neq.
Qed.

Lemma read_game_prompt_lines (lines game_prompt rest : list string) :
  no_blank_pair lines = true ->
  awaits_text game_prompt lines ->
  read_game_prompt (lines ++ "" :: "" :: rest) game_prompt
  = Some (game_prompt ++ lines ++ [""], rest).
Proof.
  revert game_prompt.
  induction lines as [|line lines IH]; intros game_prompt Hnb Hwait.
  - cbn [app read_game_prompt].
    destruct (ends_with_blank game_prompt) eqn:E;
      [now contradiction (Hwait E) |].
    cbn [String.eqb andb]. now rewrite ends_with_blank_snoc.
  - destruct (awaits_text_step game_prompt line lines Hnb Hwait)
      as [Hcond [Hnb' Hwait']].
    cbn [app read_game_prompt]. rewrite Hcond.
    rewrite (IH _ Hnb' Hwait'). now rewrite <- app_assoc.
Qed.

Lemma read_game_prompt_eof (lines game_prompt : list string) :
  no_blank_pair lines = true ->
  awaits_text game_prompt lines ->
  read_game_prompt lines game_prompt = None.
Proof.
  revert game_prompt.
  induction lines as [|line lines IH]; intros game_prompt Hnb Hwait;
    [reflexivity |].
  destruct (awaits_text_step game_prompt line lines Hnb Hwait)
    as [Hcond [Hnb' Hwait']].
  cbn [read_game_prompt]. rewrite Hcond. now apply IH.
Qed.

Lemma awaits_text_nil (lines : list string) : awaits_text [] lines.
Proof. intros H. discriminate H. Qed.

(** X27.  When every empty line typed is followed by a line that is not
    empty, [get_custom_game_prompt] reads exactly up to the first two
    empty lines in a row: the description is the lines before them, joined
    by line breaks and stripped, and the input after them is left unread.
    Without two empty lines in a row the input runs out and [input()]
    raises [EOFError]. *)
Theorem custom_prompt_ends_at_blank_pair (lines rest : list string) :
  no_blank_pair lines = true ->
  get_custom_game_prompt (lines ++ "" :: "" :: rest) =
  Some (let final_prompt := strip (Tools.join newline lines) in
        if String.eqb final_prompt "" then example3_snake
        else enhanced_prompt final_prompt,
        rest)
  /\ get_custom_game_prompt lines = None.
Proof.
  intros Hnb. unfold get_custom_game_prompt. split.
  - rewrite (read_game_prompt_lines lines [] rest Hnb (awaits_text_nil _)).
    cbn [app]. rewrite ends_with_blank_snoc, removelast_last.
    cbn [String.eqb].
    destruct (String.eqb (strip (Tools.join newline lines)) "");
      reflexivity.
  - now rewrite (read_game_prompt_eof lines [] Hnb (awaits_text_nil _)).
Qed.

Lemma custom_prompt_ends_at_blank_pair_witness :
  get_custom_game_prompt
    (["A maze game"; ""; "with arrow keys"] ++ "" :: "" :: ["y"]) =
  Some (let final_prompt :=
          strip (Tools.join newline ["A maze game"; ""; "with arrow keys"]) in
        if String.eqb final_prompt "" then example3_snake
        else enhanced_prompt final_prompt,
        ["y"])
  /\ get_custom_game_prompt ["A maze game"; ""; "with arrow keys"] = None.
Proof.
  apply (custom_prompt_ends_at_blank_pair
           ["A maze game"; ""; "with arrow keys"] ["y"]).
  reflexivity.
Defined.

Lemma lstrip_all_space (s : string) :
  all_space s = true -> lstrip s = "".
Proof.
  induction s as [|c s IH]; simpl; [reflexivity |].
  rewrite andb_true_iff. intros [-> H]. now apply IH.
Qed.

Lemma all_space_app (a b : string) :
  all_space (a ++ b) = all_space a && all_space b.
Proof.
  induction a as [|c a IH]; simpl; [reflexivity |].
  now rewrite IH, andb_assoc.
Qed.

Lemma all_space_join (lines : list string) :
  Forall (fun line => all_space line = true) lines ->
  all_space (Tools.join newline lines) = true.
Proof.
  induction 1 as [|line lines Hline Hlines IH]; [reflexivity |].
  destruct lines as [|next lines]; [exact Hline |].
  change (Tools.join newline (line :: next :: lines))
    with (line ++ newline ++ Tools.join newline (next :: lines))%string.
  now rewrite !all_space_app, Hline, IH.
Qed.

(** X28.  A description made of white space only, however many lines it
    has, is answered with the Snake example. *)
Theorem blank_prompt_gives_snake (lines rest : list string) :
  no_blank_pair lines = true ->
  Forall (fun line => all_space line = true) lines ->
  get_custom_game_prompt (lines ++ "" :: "" :: rest)
  = Some (example3_snake, rest).
Proof.
  intros Hnb Hspace. unfold get_custom_game_prompt.
  rewrite (read_game_prompt_lines lines [] rest Hnb (awaits_text_nil _)).
  cbn [app]. rewrite ends_with_blank_snoc, removelast_last.
  cbn [String.eqb]. unfold strip.
  now rewrite (lstrip_all_space _ (all_space_join lines Hspace)).
Qed.

Lemma blank_prompt_gives_snake_witness :
  get_custom_game_prompt (["   "; "	"] ++ "" :: "" :: ["n"])
  = Some (example3_snake, ["n"]).
Proof.
  apply (blank_prompt_gives_snake ["   "; "	"] ["n"]).
  - reflexivity.
  - repeat constructor.
Defined.

End PromptFacts.
